(** * makeNoiseU: adding random noise to the initial velocity field 0/U

    A shallow embedding of [makeNoiseU.py] and the properties of its
    three stages: the extractor of the cell count from [0/C], the noise
    generator, and the rewriter of the [internalField] entry of [0/U].

    Modelling conventions.
    - A text is a list of characters; a character is a code point below
      256 ([ascii]), so the files are taken to hold Latin-1 text only.
    - The regular expressions of the script use quantifiers on character
      classes only; the syntax [re] below covers exactly that fragment,
      and the matcher [m] is a backtracking matcher with the priorities of
      Python's [re] module (left alternative first, greedy repetitions
      longest first, lazy repetitions shortest first).
    - NumPy's floating-point numbers are replaced by exact rationals
      ([Qc]); NaN, the mean of an empty array, is [None].
    - The generator [numpy.random.default_rng] is a parameter of the
      development: a state type, a seeding function and a sampler that
      threads the state. *)

From Stdlib Require Import Ascii String List Bool Arith ZArith Lia.
From Stdlib Require Import QArith Qcanon.
Import ListNotations.

Close Scope Qc_scope.
Close Scope Q_scope.
Set Implicit Arguments.

(** ** Texts *)

Definition text := list ascii.

(** [T "abc"] is the text of a string literal. *)
Definition T (s : string) : text := list_ascii_of_string s.

(** The line feed, Python's ["\n"]. *)
Definition LF : ascii := ascii_of_nat 10.
Definition nl : text := [LF].

Definition code (a : ascii) : nat := nat_of_ascii a.

(** Python's [sep.join(parts)]. *)
Fixpoint join (sep : text) (parts : list text) : text :=
  match parts with
  | [] => []
  | [p] => p
  | p :: rest => p ++ sep ++ join sep rest
  end.

(** [strip_prefix l s] is [Some rest] when [s = l ++ rest]. *)
Fixpoint strip_prefix (l s : text) : option text :=
  match l with
  | [] => Some s
  | a :: l' =>
      match s with
      | [] => None
      | b :: s' => if Ascii.eqb a b then strip_prefix l' s' else None
      end
  end.

(** Python's [s.split(needle, 1)]: [None] when [needle] does not occur
    (the result then has one element only), else the texts before and
    after the first occurrence. *)
Fixpoint split_once_from (needle : text) (pre_rev s : text) : option (text * text) :=
  match strip_prefix needle s with
  | Some rest => Some (rev pre_rev, rest)
  | None =>
      match s with
      | [] => None
      | a :: s' => split_once_from needle (a :: pre_rev) s'
      end
  end.

Definition split_once (needle s : text) : option (text * text) :=
  split_once_from needle [] s.

(** ** Character classes *)

(** [\s] on a str pattern: the code points below 256 for which
    [str.isspace] holds. *)
Definition is_space (a : ascii) : bool :=
  let n := code a in
  ((9 <=? n) && (n <=? 13)) || ((28 <=? n) && (n <=? 32))
  || (n =? 133) || (n =? 160).

(** [\d]: the only decimal digits below 256 are ['0'] to ['9']. *)
Definition is_digit (a : ascii) : bool :=
  let n := code a in (48 <=? n) && (n <=? 57).

(** [[^\)]] *)
Definition not_rparen (a : ascii) : bool := negb (Ascii.eqb a ")").

(** [[\s\S]] *)
Definition any_char (a : ascii) : bool := is_space a || negb (is_space a).

(** [[eE0-9\+\-\.]] *)
Definition is_numchar (a : ascii) : bool :=
  Ascii.eqb a "e" || Ascii.eqb a "E" || is_digit a
  || Ascii.eqb a "+" || Ascii.eqb a "-" || Ascii.eqb a ".".

(** ** Regular expressions *)

Inductive re : Type :=
| Lit (l : text)                                   (* literal characters *)
| Rep (c : ascii -> bool) (min : nat) (greedy : bool)
                                                   (* c* c+ c*? *)
| Cat (r1 r2 : re)
| Alt (r1 r2 : re)                                 (* r1|r2 *)
| Grp (r : re).                                    (* capturing group *)

Declare Scope re_scope.
Delimit Scope re_scope with re.
Bind Scope re_scope with re.
Infix "++" := Cat (right associativity, at level 60) : re_scope.

Definition star c := Rep c 0 true.
Definition plus c := Rep c 1 true.
Definition star_lazy c := Rep c 0 false.

Section Matcher.
Variable A : Type.

(** Greedy repetition of a class: take a character when possible and
    come back to the shorter match when the rest fails. *)
Fixpoint rep_greedy (c : ascii -> bool) (min : nat) (s : text)
         (k : text -> option A) : option A :=
  let stop := if min =? 0 then k s else None in
  match s with
  | a :: s' =>
      if c a then
        match rep_greedy c (pred min) s' k with
        | Some x => Some x
        | None => stop
        end
      else stop
  | [] => stop
  end.

(** Lazy repetition: try the rest first, take a character when it
    fails. *)
Fixpoint rep_lazy (c : ascii -> bool) (min : nat) (s : text)
         (k : text -> option A) : option A :=
  match (if min =? 0 then k s else None) with
  | Some x => Some x
  | None =>
      match s with
      | a :: s' => if c a then rep_lazy c (pred min) s' k else None
      | [] => None
      end
  end.

(** [m r s caps k]: match [r] at the start of [s], then run [k] on the
    rest of the text and the groups captured so far; a failure of [k]
    makes the matcher backtrack.  Groups are recorded when they close;
    the patterns of the script have no nested group, so the i-th
    recorded text is Python's [group(i)]. *)
Fixpoint m (r : re) (s : text) (caps : list text)
         (k : text -> list text -> option A) : option A :=
  match r with
  | Lit l =>
      match strip_prefix l s with
      | Some rest => k rest caps
      | None => None
      end
  | Rep c min true => rep_greedy c min s (fun rest => k rest caps)
  | Rep c min false => rep_lazy c min s (fun rest => k rest caps)
  | Cat r1 r2 => m r1 s caps (fun rest caps' => m r2 rest caps' k)
  | Alt r1 r2 =>
      match m r1 s caps k with
      | Some x => Some x
      | None => m r2 s caps k
      end
  | Grp r1 =>
      m r1 s caps
        (fun rest caps' =>
           k rest (caps' ++ [firstn (length s - length rest) s]))
  end.
End Matcher.

(** A match found in a text: what precedes it, the matched text, what
    follows it, and the captured groups. *)
Record found : Type := Found {
  f_pre : text;
  f_match : text;
  f_post : text;
  f_groups : list text
}.

(** [pattern.match] at the start of [s]: the rest and the groups. *)
Definition re_match_at (r : re) (s : text) : option (text * list text) :=
  m r s [] (fun rest caps => Some (rest, caps)).

(** [re.search]: the leftmost position where the pattern matches. *)
Fixpoint search_from (r : re) (pre_rev s : text) : option found :=
  match re_match_at r s with
  | Some (rest, caps) =>
      Some (Found (rev pre_rev) (firstn (length s - length rest) s) rest caps)
  | None =>
      match s with
      | [] => None
      | a :: s' => search_from r (a :: pre_rev) s'
      end
  end.

Definition re_search (r : re) (s : text) : option found := search_from r [] s.

(** [re.findall]: the groups of the successive non-overlapping matches.
    [skip] counts the characters of the last match still to be passed.
    (Python treats an empty match in a special way; the one pattern the
    script gives to [findall] starts with a parenthesis and matches no
    empty text.) *)
Fixpoint findall_from (r : re) (skip : nat) (s : text) : list (list text) :=
  match skip with
  | S n =>
      match s with
      | [] => []
      | _ :: s' => findall_from r n s'
      end
  | O =>
      match re_match_at r s with
      | Some (rest, caps) =>
          caps ::
            match s with
            | [] => []
            | _ :: s' => findall_from r (pred (length s - length rest)) s'
            end
      | None =>
          match s with
          | [] => []
          | _ :: s' => findall_from r 0 s'
          end
      end
  end.

Definition re_findall (r : re) (s : text) : list (list text) :=
  findall_from r 0 s.

(** [re.subn(pattern, repl, s, count=1)] for a replacement [repl] without
    backslash (the template is then the replacement itself): the new text
    and the number of substitutions. *)
Definition re_subn1 (r : re) (repl s : text) : text * nat :=
  match re_search r s with
  | Some f => (f_pre f ++ repl ++ f_post f, 1)
  | None => (s, 0)
  end.

(** ** The patterns of the script *)

(** [internalField\s+nonuniform\s+List<vector>\s*\n(\d+)\s*\n\(] *)
Definition header_re : re :=
  (Lit (T "internalField") ++ plus is_space ++ Lit (T "nonuniform")
   ++ plus is_space ++ Lit (T "List<vector>") ++ star is_space ++ Lit nl
   ++ Grp (plus is_digit) ++ star is_space ++ Lit nl ++ Lit (T "("))%re.

(** [\(\s*([eE0-9\+\-\.]+)\s+([eE0-9\+\-\.]+)\s+([eE0-9\+\-\.]+)\s*\)] *)
Definition vector_re : re :=
  (Lit (T "(") ++ star is_space ++ Grp (plus is_numchar) ++ plus is_space
   ++ Grp (plus is_numchar) ++ plus is_space ++ Grp (plus is_numchar)
   ++ star is_space ++ Lit (T ")"))%re.

(** [internalField\s+(?:uniform\s+\([^\)]+\)|nonuniform\s+List<vector>\s*\n\d+\s*\n\([\s\S]*?\)\s*\)\s*;)\s*;] *)
Definition uniform_branch : re :=
  (Lit (T "uniform") ++ plus is_space ++ Lit (T "(") ++ plus not_rparen
   ++ Lit (T ")"))%re.

Definition nonuniform_branch : re :=
  (Lit (T "nonuniform") ++ plus is_space ++ Lit (T "List<vector>")
   ++ star is_space ++ Lit nl ++ plus is_digit ++ star is_space ++ Lit nl
   ++ Lit (T "(") ++ star_lazy any_char ++ Lit (T ")") ++ star is_space
   ++ Lit (T ")") ++ star is_space ++ Lit (T ";"))%re.

Definition primary_re : re :=
  (Lit (T "internalField") ++ plus is_space
   ++ Alt uniform_branch nonuniform_branch
   ++ star is_space ++ Lit (T ";"))%re.

(** [internalField\s+uniform\s+\([^\)]+\);\s*] *)
Definition secondary_re : re :=
  (Lit (T "internalField") ++ plus is_space ++ Lit (T "uniform")
   ++ plus is_space ++ Lit (T "(") ++ plus not_rparen ++ Lit (T ");")
   ++ star is_space)%re.

(** ** Numbers and their formats *)

(** Python's [int(s)] on a text of decimal digits. *)
Definition digit_val (a : ascii) : nat := code a - 48.

Definition int_of_text (t : text) : nat :=
  fold_left (fun acc a => 10 * acc + digit_val a) t 0.

Open Scope Z_scope.

Definition digit_char (d : Z) : ascii :=
  ascii_of_nat (48 + Z.to_nat d)%nat.

(** The decimal digits of [n >= 0], the most significant first; [fuel]
    bounds their number. *)
Fixpoint digits_fuel (fuel : nat) (n : Z) : text :=
  match fuel with
  | O => []
  | S f =>
      if n <? 10 then [digit_char n]
      else digits_fuel f (n / 10) ++ [digit_char (n mod 10)]
  end.

(** [str(n)] for [n >= 0]; a number below [2^k] has at most [k] decimal
    digits. *)
Definition Z_to_text (n : Z) : text :=
  digits_fuel (S (Z.to_nat (Z.log2 n))) n.

(** [f"{n}"] for a non-negative integer. *)
Definition nat_to_text (n : nat) : text := Z_to_text (Z.of_nat n).

(** The [w] lowest decimal digits of [n], the most significant first. *)
Fixpoint fixed_digits (w : nat) (n : Z) : text :=
  match w with
  | O => []
  | S w' => fixed_digits w' (n / 10) ++ [digit_char (n mod 10)]
  end.

(** Number of decimal digits of a positive integer. *)
Definition ndigits (n : Z) : Z := Z.of_nat (length (Z_to_text n)).

(** [ge_pow10 p q e]: [10^e <= p/q], for positive [p] and [q]. *)
Definition ge_pow10 (p q e : Z) : bool :=
  if 0 <=? e then q * 10 ^ e <=? p else q <=? p * 10 ^ (- e).

(** The decimal exponent of [p/q]: the [e] with [10^e <= p/q < 10^(e+1)]. *)
Definition exponent10 (p q : Z) : Z :=
  let e0 := ndigits p - ndigits q in
  if ge_pow10 p q e0 then e0 else e0 - 1.

(** [num/den] rounded to the nearest integer, ties to even. *)
Definition round_half_even (num den : Z) : Z :=
  let qt := num / den in
  let r := num mod den in
  if 2 * r <? den then qt
  else if den <? 2 * r then qt + 1
  else if Z.even qt then qt else qt + 1.

(** Mantissa (an integer of nine digits) and exponent of [p/q] in the
    format [.8e]; a mantissa that rounds up to [10^9] moves to the next
    exponent. *)
Definition sci_parts (p q : Z) : Z * Z :=
  let e := exponent10 p q in
  let m9 :=
    if e <=? 8 then round_half_even (p * 10 ^ (8 - e)) q
    else round_half_even p (q * 10 ^ (e - 8)) in
  if m9 =? 10 ^ 9 then (10 ^ 8, e + 1) else (m9, e).

(** The exponent field: a sign and at least two digits. *)
Definition exp_text (e : Z) : text :=
  (if e <? 0 then T "-" else T "+")
  ++ (if Z.abs e <? 10 then T "0" else [])
  ++ Z_to_text (Z.abs e).

(** [f"{x:.8e}"]. *)
Definition format_e8 (x : Qc) : text :=
  let p := Qnum x in
  let q := Zpos (Qden x) in
  if p =? 0 then T "0.00000000e+00"
  else
    let '(m9, e) := sci_parts (Z.abs p) q in
    (if p <? 0 then T "-" else [])
    ++ [digit_char (m9 / 10 ^ 8)] ++ T "."
    ++ fixed_digits 8 (m9 mod 10 ^ 8) ++ T "e" ++ exp_text e.

Close Scope Z_scope.

(** ** Arrays *)

(** A row of the array [U] of shape [(nCells, 3)]. *)
Definition row : Type := Qc * Qc * Qc.

Definition col (j : nat) (u : row) : Qc :=
  let '(x, y, z) := u in
  match j with 0 => x | 1 => y | _ => z end.

(** [np.ones((n, 3))] *)
Definition ones (n : nat) : list row := repeat (1%Qc, 1%Qc, 1%Qc) n.

Definition set_row (j : nat) (v : Qc) (u : row) : row :=
  let '(x, y, z) := u in
  match j with 0 => (v, y, z) | 1 => (x, v, z) | _ => (x, y, v) end.

(** [U[:, j] = v]: NumPy raises an error when [j] is out of range or when
    the shapes differ, which is [None] here. *)
Fixpoint set_col_rows (j : nat) (v : list Qc) (U : list row) : option (list row) :=
  match v, U with
  | [], [] => Some []
  | a :: v', u :: U' =>
      match set_col_rows j v' U' with
      | Some R => Some (set_row j a u :: R)
      | None => None
      end
  | _, _ => None
  end.

Definition set_col (j : nat) (v : list Qc) (U : list row) : option (list row) :=
  if j <? 3 then set_col_rows j v U else None.

Definition sum (v : list Qc) : Qc := fold_right Qcplus 0%Qc v.

(** [v.mean()]: NaN ([None]) for an empty array. *)
Definition mean (v : list Qc) : option Qc :=
  match v with
  | [] => None
  | _ => Some (sum v / Q2Qc (inject_Z (Z.of_nat (length v))))%Qc
  end.

(** [v -= v.mean()] *)
Definition recenter (v : list Qc) : list Qc :=
  match mean v with
  | Some mu => map (fun y => (y - mu)%Qc) v
  | None => []
  end.

(** [amp * v] *)
Definition scale (a : Qc) (v : list Qc) : list Qc := map (Qcmult a) v.

(** ** Paths and files *)

(** A path is the list of its components. *)
Definition path : Type := list text.

Definition path_eq_dec : forall p q : path, {p = q} + {p <> q} :=
  list_eq_dec (list_eq_dec ascii_dec).

(** Index of the last dot of a file name ([name.rfind('.')]). *)
Fixpoint rfind_dot (name : text) (i : nat) (acc : option nat) : option nat :=
  match name with
  | [] => acc
  | a :: r => rfind_dot r (S i) (if Ascii.eqb a "." then Some i else acc)
  end.

(** [PurePath.stem]: the name without its suffix; a dot in first or last
    position starts no suffix. *)
Definition stem (name : text) : text :=
  match rfind_dot name 0 None with
  | Some i => if (0 <? i) && (i <? length name - 1) then firstn i name else name
  | None => name
  end.

(** [p.with_suffix(suf)] for a path with a non-empty last component. *)
Definition with_suffix (suf : text) (p : path) : path :=
  match rev p with
  | [] => []
  | name :: r => rev r ++ [stem name ++ suf]
  end.

(** Python's [str.strip()]. *)
Fixpoint lstrip (t : text) : text :=
  match t with
  | [] => []
  | a :: t' => if is_space a then lstrip t' else t
  end.

Definition strip (t : text) : text := rev (lstrip (rev (lstrip t))).

Inductive error : Type :=
| MissingFile (p : path)                  (* FileNotFoundError *)
| CannotParseC                            (* "Could not parse 0/C ..." *)
| TooFewVectors (parsed expected : nat)   (* "Parsed only ... vectors" *)
| NoInternalField                         (* "Could not find/replace ..." *)
| IndexError                              (* list index out of range *)
| ShapeError.                             (* NumPy broadcast error *)

(** The files of the case and the writes done so far, the oldest first. *)
Record world : Type := World {
  files : path -> option text;
  writes : list (path * text)
}.

(** Computations that read and write files and may raise an error; an
    error keeps the world reached when it was raised. *)
Definition M (A : Type) : Type := world -> (error + A) * world.

Definition ret {A} (a : A) : M A := fun w => (inr a, w).

Definition raise {A} (e : error) : M A := fun w => (inl e, w).

Definition bind {A B} (c : M A) (k : A -> M B) : M B :=
  fun w =>
    match c w with
    | (inl e, w') => (inl e, w')
    | (inr a, w') => k a w'
    end.

Declare Scope monad_scope.
Delimit Scope monad_scope with monad.
Notation "x <- c ;; k" := (bind c (fun x => k))
  (at level 61, c at next level, right associativity) : monad_scope.
Notation "c ;; k" := (bind c (fun _ => k))
  (at level 61, right associativity) : monad_scope.

Definition lift {A} (r : error + A) : M A := fun w => (r, w).

(** [p.exists()] *)
Definition exists_ (p : path) : M bool :=
  fun w => (inr (match files w p with Some _ => true | None => false end), w).

(** [p.read_text()] *)
Definition read_text (p : path) : M text :=
  fun w =>
    match files w p with
    | Some t => (inr t, w)
    | None => (inl (MissingFile p), w)
    end.

(** [p.write_text(t)] *)
Definition write_text (p : path) (t : text) : M unit :=
  fun w =>
    (inr tt,
     World (fun q => if path_eq_dec q p then Some t else files w q)
           (writes w ++ [(p, t)])).

(** ** The script *)

Section Script.
(** [numpy.random]: the state of a generator, its seeding and the draw
    of one standard normal value. *)
Variable rng : Type.
Variable default_rng : Z -> rng.
Variable next_normal : rng -> Qc * rng.

(** [rng.standard_normal(n)]: [n] successive draws. *)
Fixpoint standard_normal (g : rng) (n : nat) : list Qc * rng :=
  match n with
  | O => ([], g)
  | S n' =>
      let '(x, g1) := next_normal g in
      let '(xs, g2) := standard_normal g1 n' in
      (x :: xs, g2)
  end.

(** The user knobs. *)
Definition amp : Qc := Q2Qc (1 # 10).
Definition seed : Z := 7%Z.

(** *** Cell count from 0/C (lines 53-63) *)
Definition extract (txtC : text) : error + nat :=
  match re_search header_re txtC with
  | None => inl CannotParseC
  | Some mt =>
      let nCells := int_of_text (nth 0 (f_groups mt) []) in
      match split_once (T "internalField") txtC with
      | None => inl IndexError
      | Some (_, block) =>
          let vecs := re_findall vector_re block in
          if length vecs <? nCells
          then inl (TooFewVectors (length vecs) nCells)
          else inr nCells
      end
  end.

(** *** Noise (lines 65-75) *)
Definition noise (seed : Z) (amp : Qc) (nCells : nat) : error + list row :=
  let g := default_rng seed in
  let '(Uy, g) := standard_normal g nCells in
  let '(Uz, g) := standard_normal g nCells in
  let Uy := recenter Uy in
  let Uz := recenter Uz in
  let U := ones nCells in
  match set_col 1 (scale amp Uy) U with
  | None => inl ShapeError
  | Some U =>
      match set_col 2 (scale amp Uz) U with
      | None => inl ShapeError
      | Some U => inr U
      end
  end.

(** *** The new internalField entry (lines 77-85) *)
Definition format_row (u : row) : text :=
  T "(" ++ format_e8 (col 0 u) ++ T " " ++ format_e8 (col 1 u) ++ T " "
  ++ format_e8 (col 2 u) ++ T ")".

Definition Ulist (U : list row) : text := join nl (map format_row U).

Definition new_internal (nCells : nat) (U : list row) : text :=
  T "internalField   nonuniform List<vector>" ++ nl
  ++ nat_to_text nCells ++ nl
  ++ T "(" ++ nl
  ++ Ulist U ++ nl
  ++ T ");" ++ nl.

(** *** Replacement in 0/U (lines 87-114) *)
Definition replace_internalField (new_internal txtU : text) : error + text :=
  let '(txtU2, nsubs) :=
    re_subn1 primary_re (strip new_internal ++ nl) txtU in
  let '(txtU2, nsubs) :=
    if nsubs =? 0 then re_subn1 secondary_re new_internal txtU
    else (txtU2, nsubs) in
  if nsubs =? 0 then inl NoInternalField else inr txtU2.

(** *** main *)
Variable case : path.

Definition Ufile : path := case ++ [T "0"; T "U"].
Definition Cfile : path := case ++ [T "0"; T "C"].
Definition bak : path := with_suffix (T ".bak") Ufile.

Definition main : M unit :=
  (Uexists <- exists_ Ufile ;;
   Cexists <- exists_ Cfile ;;
   if negb Uexists then raise (MissingFile Ufile) else
   if negb Cexists then raise (MissingFile Cfile) else
   txtU <- read_text Ufile ;;
   txtC <- read_text Cfile ;;
   nCells <- lift (extract txtC) ;;
   U <- lift (noise seed amp nCells) ;;
   txtU2 <- lift (replace_internalField (new_internal nCells U) txtU) ;;
   write_text bak txtU ;;
   write_text Ufile txtU2)%monad.
End Script.

(** ** A concrete generator and concrete files, for examples *)

Module Sample.
(** A linear congruential generator whose draws are the rationals
    [k/1000] with [-1000 <= k <= 1000]. *)
Definition lcg_seed (s : Z) : Z := s.

Definition lcg_next (s : Z) : Qc * Z :=
  let s' := ((1103515245 * s + 12345) mod 2147483648)%Z in
  (Q2Qc ((s' mod 2001 - 1000)%Z # 1000), s').

Definition lines (ls : list string) : text :=
  flat_map (fun l => T l ++ nl) ls.

Local Open Scope string_scope.

Definition case : path := [T "channelPeriodic"].

(** A world with the two files [0/U] and [0/C]. *)
Definition mk_world (txtU txtC : text) : world :=
  World (fun p =>
           if path_eq_dec p (Ufile case) then Some txtU
           else if path_eq_dec p (Cfile case) then Some txtC
           else None)
        [].

Definition run (w : world) : (error + unit) * world :=
  main lcg_seed lcg_next case w.

(** 0/C with three cell centres. *)
Definition C3 : text :=
  lines ["FoamFile { class volVectorField; object C; }";
         "dimensions      [0 1 0 0 0 0 0];";
         "internalField   nonuniform List<vector> ";
         "3";
         "(";
         "(0.5 0.5 0.5)";
         "(1.5 0.5 0.5)";
         "(2.5 0.5 0.5)";
         ")";
         ";";
         "boundaryField { walls { type calculated; } }"].

(** 0/U with a uniform internalField. *)
Definition U_uniform : text :=
  lines ["FoamFile { class volVectorField; object U; }";
         "dimensions      [0 1 -1 0 0 0 0];";
         "internalField   uniform (0 0 0);";
         "boundaryField { walls { type noSlip; } }"].

(** 0/U with a nonuniform internalField of three vectors. *)
Definition U_nonuniform : text :=
  lines ["FoamFile { class volVectorField; object U; }";
         "dimensions      [0 1 -1 0 0 0 0];";
         "internalField   nonuniform List<vector> ";
         "3";
         "(";
         "(0 0 0)";
         "(0 0 0)";
         "(0 0 0)";
         ")";
         ";";
         "boundaryField { walls { type noSlip; } }"].





(** 0/U without an internalField entry. *)
Definition U_no_entry : text :=
  lines ["FoamFile { class volVectorField; object U; }";
         "dimensions      [0 1 -1 0 0 0 0];";
         "boundaryField { walls { type noSlip; } }"].

(** 0/U with another uniform value and another boundary section. *)
Definition U_uniform_inlet : text :=
  lines ["FoamFile { class volVectorField; object U; }";
         "internalField uniform (1 0 0);";
         "boundaryField { inlet { type fixedValue; value uniform (1 0 0); } }"].

End Sample.

(** ** Vocabulary of the properties *)

(** [Match r w cs]: the text [w] belongs to the language of [r], with the
    captured groups [cs]. *)
Inductive Match : re -> text -> list text -> Prop :=
| MLit l : Match (Lit l) l []
| MRep c min g w :
    Forall (fun a => c a = true) w -> min <= length w ->
    Match (Rep c min g) w []
| MCat r1 r2 w1 w2 c1 c2 :
    Match r1 w1 c1 -> Match r2 w2 c2 -> Match (Cat r1 r2) (w1 ++ w2) (c1 ++ c2)
| MAltL r1 r2 w cs : Match r1 w cs -> Match (Alt r1 r2) w cs
| MAltR r1 r2 w cs : Match r2 w cs -> Match (Alt r1 r2) w cs
| MGrp r w cs : Match r w cs -> Match (Grp r) w (cs ++ [w]).

(** [occurs r s]: some part of the text [s] matches [r]. *)
Definition occurs (r : re) (s : text) : Prop :=
  exists pre w post cs, s = pre ++ w ++ post /\ Match r w cs.

Definition all (c : ascii -> bool) (w : text) : Prop :=
  Forall (fun a => c a = true) w.

(** The declared count of a found header: [int(m.group(1))]. *)
Definition declared (mt : found) : nat := int_of_text (nth 0 (f_groups mt) []).

(** The two samples of a run: [Uy], then [Uz] drawn from the state that
    [Uy] left. *)
Definition sample_y {rng} (default_rng : Z -> rng) next_normal
           (seed : Z) (n : nat) : list Qc :=
  fst (standard_normal next_normal (default_rng seed) n).

Definition sample_z {rng} (default_rng : Z -> rng) next_normal
           (seed : Z) (n : nat) : list Qc :=
  fst (standard_normal next_normal
         (snd (standard_normal next_normal (default_rng seed) n)) n).


(** The literal that ends every match of a pattern, when its syntax
    shows one. *)
Fixpoint last_lit (r : re) : option text :=
  match r with
  | Lit l => Some l
  | Cat _ r2 => last_lit r2
  | _ => None
  end.

(** Two semicolons that only white space separates, and the start of a
    uniform entry. *)
Definition two_semicolons_re : re :=
  (Lit (T ";") ++ star is_space ++ Lit (T ";"))%re.

Definition uniform_head_re : re :=
  (Lit (T "internalField") ++ plus is_space ++ Lit (T "uniform"))%re.

(** [stops c r]: the text [r] does not go on with a character of the
    class [c]. *)
Definition stops (c : ascii -> bool) (r : text) : Prop :=
  match r with
  | [] => True
  | a :: _ => c a = false
  end.

(** The three number texts of a row of the entry. *)
Definition row_groups (u : row) : list text :=
  [format_e8 (col 0 u); format_e8 (col 1 u); format_e8 (col 2 u)].

(** * Properties *)

Unset Implicit Arguments.

#[local] Hint Constructors Match : core.

(** ** What the matcher computes *)

Lemma strip_prefix_app l rest : strip_prefix l (l ++ rest) = Some rest.
Proof.
  induction l as [|a l IH]; simpl; [reflexivity|].
  now rewrite Ascii.eqb_refl.
Qed.

Lemma strip_prefix_Some l s rest : strip_prefix l s = Some rest -> s = l ++ rest.
Proof.
  revert s; induction l as [|a l IH]; simpl; intros s H.
  - now inversion H.
  - destruct s as [|b s]; [discriminate|].
    destruct (Ascii.eqb_spec a b) as [->|]; [|discriminate].
    now rewrite (IH _ H).
Qed.



Lemma firstn_length_app (w rest : text) :
  firstn (length (w ++ rest) - length rest) (w ++ rest) = w.
Proof.
  rewrite length_app, Nat.add_sub.
  rewrite firstn_app, Nat.sub_diag, firstn_all. simpl. apply app_nil_r.
Qed.

Section MatcherSpec.
Variable A : Type.
Implicit Types (k : text -> option A) (c : ascii -> bool).

Lemma rep_greedy_Some c k s : forall min x,
  rep_greedy c min s k = Some x ->
  exists w rest, s = w ++ rest /\ Forall (fun a => c a = true) w
                 /\ min <= length w /\ k rest = Some x.
Proof.
  induction s as [|a s IH]; intros min x; simpl.
  - destruct (Nat.eqb_spec min 0) as [->|]; [|discriminate].
    intros H. exists [], []. auto.
  - assert (Hstop : (if min =? 0 then k (a :: s) else None) = Some x ->
                    exists w rest, a :: s = w ++ rest
                      /\ Forall (fun a => c a = true) w
                      /\ min <= length w /\ k rest = Some x).
    { destruct (Nat.eqb_spec min 0) as [->|]; [|discriminate].
      intros H. exists [], (a :: s). auto. }
    destruct (c a) eqn:Ha; [|exact Hstop].
    destruct (rep_greedy c (pred min) s k) eqn:Hr; [|exact Hstop].
    intros [= <-]. destruct (IH _ _ Hr) as (w & rest & -> & Hw & Hmin & Hk).
    exists (a :: w), rest. simpl. repeat split; auto. lia.
Qed.

Lemma rep_greedy_None c k s : forall min,
  rep_greedy c min s k = None ->
  forall w rest, s = w ++ rest -> Forall (fun a => c a = true) w ->
                 min <= length w -> k rest = None.
Proof.
  induction s as [|a s IH]; intros min; simpl.
  - intros H w rest Hs Hw Hmin.
    symmetry in Hs. apply app_eq_nil in Hs as [-> ->].
    simpl in Hmin. now replace min with 0 in H by lia.
  - intros H w rest Hs Hw Hmin.
    destruct w as [|b w]; simpl in *.
    + subst rest. replace min with 0 in H by lia. simpl in H.
      destruct (c a); [destruct (rep_greedy c 0 s k)|]; congruence.
    + injection Hs as <- ->. inversion Hw as [|? ? Hb Hw']; subst.
      rewrite Hb in H.
      destruct (rep_greedy c (pred min) (w ++ rest) k) eqn:Hr; [discriminate|].
      apply (IH _ Hr w rest); auto. lia.
Qed.

Lemma rep_lazy_Some c k s : forall min x,
  rep_lazy c min s k = Some x ->
  exists w rest, s = w ++ rest /\ Forall (fun a => c a = true) w
                 /\ min <= length w /\ k rest = Some x.
Proof.
  induction s as [|a s IH]; intros min x; simpl.
  - destruct (Nat.eqb_spec min 0) as [->|]; [|discriminate].
    destruct (k []) eqn:Hk; [|discriminate].
    intros [= <-]. exists [], []. auto.
  - destruct (if min =? 0 then k (a :: s) else None) eqn:Hstop.
    + intros [= <-].
      destruct (Nat.eqb_spec min 0) as [->|]; [|discriminate].
      exists [], (a :: s). auto.
    + destruct (c a) eqn:Ha; [|discriminate].
      intros Hr. destruct (IH _ _ Hr) as (w & rest & -> & Hw & Hmin & Hk).
      exists (a :: w), rest. simpl. repeat split; auto. lia.
Qed.

Lemma rep_lazy_None c k s : forall min,
  rep_lazy c min s k = None ->
  forall w rest, s = w ++ rest -> Forall (fun a => c a = true) w ->
                 min <= length w -> k rest = None.
Proof.
  induction s as [|a s IH]; intros min; simpl.
  - intros H w rest Hs Hw Hmin.
    symmetry in Hs. apply app_eq_nil in Hs as [-> ->].
    simpl in Hmin. replace min with 0 in H by lia. simpl in H.
    destruct (k []); congruence.
  - intros H w rest Hs Hw Hmin.
    destruct w as [|b w]; simpl in *.
    + subst rest. replace min with 0 in H by lia. simpl in H.
      destruct (k (a :: s)); congruence.
    + injection Hs as <- ->. inversion Hw as [|? ? Hb Hw']; subst.
      rewrite Hb in H.
      destruct (if min =? 0 then k (a :: w ++ rest) else None); [discriminate|].
      apply (IH _ H w rest); auto. lia.
Qed.

(** A success of the matcher is a match of the pattern followed by a
    success of the continuation. *)
Lemma m_Some r : forall s caps (k : text -> list text -> option A) x,
  m r s caps k = Some x ->
  exists w rest cs, s = w ++ rest /\ Match r w cs
                    /\ k rest (caps ++ cs) = Some x.
Proof.
  induction r as [l|c min g|r1 IH1 r2 IH2|r1 IH1 r2 IH2|r IH];
    intros s caps k x; simpl.
  - destruct (strip_prefix l s) as [rest|] eqn:Hp; [|discriminate].
    intros Hk. apply strip_prefix_Some in Hp.
    exists l, rest, []. rewrite app_nil_r. auto.
  - intros H.
    assert (exists w rest, s = w ++ rest /\ Forall (fun a => c a = true) w
                           /\ min <= length w /\ k rest caps = Some x)
      as (w & rest & -> & Hw & Hmin & Hk).
    { destruct g; [apply rep_greedy_Some in H|apply rep_lazy_Some in H];
        exact H. }
    exists w, rest, []. rewrite app_nil_r. auto.
  - intros H. apply IH1 in H as (w1 & rest1 & c1 & -> & M1 & H).
    apply IH2 in H as (w2 & rest2 & c2 & -> & M2 & H).
    exists (w1 ++ w2), rest2, (c1 ++ c2).
    split; [now rewrite app_assoc|]. split; [auto|]. now rewrite app_assoc.
  - destruct (m r1 s caps k) eqn:H1.
    + intros [= <-]. apply IH1 in H1 as (w & rest & cs & -> & M1 & H).
      exists w, rest, cs. auto.
    + intros H. apply IH2 in H as (w & rest & cs & -> & M2 & H).
      exists w, rest, cs. auto.
  - intros H. apply IH in H as (w & rest & cs & -> & M1 & H).
    rewrite firstn_length_app in H.
    exists w, rest, (cs ++ [w]). rewrite app_assoc. auto.
Qed.

(** A failure of the matcher means that the continuation fails after
    every match of the pattern: backtracking misses none. *)
Lemma m_None r : forall s caps (k : text -> list text -> option A),
  m r s caps k = None ->
  forall w rest cs, s = w ++ rest -> Match r w cs ->
                    k rest (caps ++ cs) = None.
Proof.
  induction r as [l|c min g|r1 IH1 r2 IH2|r1 IH1 r2 IH2|r IH];
    intros s caps k H w rest cs -> HM; simpl in H.
  - inversion HM; subst.
    rewrite strip_prefix_app in H. now rewrite app_nil_r.
  - inversion HM; subst. rewrite app_nil_r.
    destruct g;
      [eapply rep_greedy_None in H|eapply rep_lazy_None in H]; eauto.
  - inversion HM as [| |? ? w1 w2 c1 c2 M1 M2| | |]; subst.
    rewrite <- app_assoc in H.
    specialize (IH1 _ _ _ H _ _ _ eq_refl M1). simpl in IH1.
    specialize (IH2 _ _ _ IH1 _ _ _ eq_refl M2).
    now rewrite app_assoc.
  - destruct (m r1 (w ++ rest) caps k) eqn:H1; [discriminate|].
    inversion HM; subst; [eapply IH1|eapply IH2]; eauto.
  - inversion HM as [| | | | |? ? cs' M1]; subst.
    specialize (IH _ _ _ H _ _ _ eq_refl M1). simpl in IH.
    rewrite firstn_length_app in IH. now rewrite app_assoc.
Qed.
End MatcherSpec.

Lemma re_match_at_Some r s rest caps :
  re_match_at r s = Some (rest, caps) ->
  exists w, s = w ++ rest /\ Match r w caps.
Proof.
  unfold re_match_at. intros H.
  apply m_Some in H as (w & rest' & cs & -> & HM & [= <- <-]).
  now exists w.
Qed.

Lemma re_match_at_None r s :
  re_match_at r s = None ->
  forall w rest cs, s = w ++ rest -> ~ Match r w cs.
Proof.
  unfold re_match_at. intros H w rest cs Hs HM.
  now pose proof (m_None _ _ _ _ _ H _ _ _ Hs HM).
Qed.

Lemma search_from_eq r pre_rev s :
  search_from r pre_rev s =
  match re_match_at r s with
  | Some (rest, caps) =>
      Some (Found (rev pre_rev) (firstn (length s - length rest) s) rest caps)
  | None =>
      match s with
      | [] => None
      | a :: s' => search_from r (a :: pre_rev) s'
      end
  end.
Proof. destruct s; reflexivity. Qed.

Lemma search_from_None r s : forall pre_rev,
  search_from r pre_rev s = None ->
  forall pre w post cs, s = pre ++ w ++ post -> ~ Match r w cs.
Proof.
  induction s as [|a s IH]; intros pre_rev H pre w post cs Hs;
    rewrite search_from_eq in H;
    destruct (re_match_at r _) as [[? ?]|] eqn:Hm; try discriminate.
  - symmetry in Hs. apply app_eq_nil in Hs as [-> Hs]. simpl in Hs.
    eapply re_match_at_None; eauto.
  - destruct pre as [|b pre]; simpl in Hs.
    + eapply re_match_at_None; eauto.
    + injection Hs as _ Hs. eapply IH; eauto.
Qed.

Lemma search_from_Some r s : forall pre_rev f,
  search_from r pre_rev s = Some f ->
  exists skipped,
    s = skipped ++ f_match f ++ f_post f
    /\ f_pre f = rev pre_rev ++ skipped
    /\ Match r (f_match f) (f_groups f)
    /\ forall pre w post cs,
         s = pre ++ w ++ post -> Match r w cs -> length skipped <= length pre.
Proof.
  assert (Hnow : forall s pre_rev rest caps,
             re_match_at r s = Some (rest, caps) ->
             let f := Found (rev pre_rev)
                            (firstn (length s - length rest) s) rest caps in
             s = [] ++ f_match f ++ f_post f
             /\ f_pre f = rev pre_rev ++ []
             /\ Match r (f_match f) (f_groups f)
             /\ forall pre w post cs,
                  s = pre ++ w ++ post -> Match r w cs ->
                  length (@nil ascii) <= length pre).
  { intros s0 pre_rev rest caps Hm.
    apply re_match_at_Some in Hm as (w & -> & HM).
    cbn [f_match f_post f_pre f_groups app].
    rewrite firstn_length_app, app_nil_r.
    repeat split; auto. intros; simpl; lia. }
  induction s as [|a s IH]; intros pre_rev f H;
    rewrite search_from_eq in H;
    destruct (re_match_at r _) as [[rest caps]|] eqn:Hm; try discriminate.
  - injection H as <-. exists []. exact (Hnow _ pre_rev _ _ Hm).
  - injection H as <-. exists []. exact (Hnow _ pre_rev _ _ Hm).
  - apply IH in H as (skipped & Hs & Hpre & HM & Hleft).
    exists (a :: skipped). simpl in Hpre. rewrite <- app_assoc in Hpre.
    repeat split; auto.
    + simpl. now rewrite <- Hs.
    + intros pre w post cs Hs' HM'. destruct pre as [|b pre]; simpl in *.
      * now destruct (re_match_at_None _ _ Hm _ _ _ Hs' HM').
      * injection Hs' as _ Hs'. pose proof (Hleft _ _ _ _ Hs' HM'). lia.
Qed.

(** [re.search] finds a match exactly when one exists, and it finds the
    leftmost one. *)
Lemma re_search_None r s : re_search r s = None <-> ~ occurs r s.
Proof.
  split.
  - intros H (pre & w & post & cs & Hs & HM).
    exact (search_from_None _ _ _ H _ _ _ _ Hs HM).
  - intros H. destruct (re_search r s) as [f|] eqn:Hf; [|reflexivity].
    apply search_from_Some in Hf as (skipped & Hs & _ & HM & _).
    exfalso. apply H. now exists skipped, (f_match f), (f_post f), (f_groups f).
Qed.

Lemma re_search_Some r s f :
  re_search r s = Some f ->
  s = f_pre f ++ f_match f ++ f_post f
  /\ Match r (f_match f) (f_groups f)
  /\ forall pre w post cs,
       s = pre ++ w ++ post -> Match r w cs -> length (f_pre f) <= length pre.
Proof.
  intros H. apply search_from_Some in H as (skipped & Hs & Hpre & HM & Hleft).
  simpl in Hpre. subst skipped. auto.
Qed.

(** Inversion of a match of a pattern given by its syntax. *)
Ltac inv_match :=
  repeat match goal with
    | H : Match (Cat _ _) _ _ |- _ => inversion H; clear H; subst
    | H : Match (Lit _) _ _ |- _ => inversion H; clear H; subst
    | H : Match (Rep _ _ _) _ _ |- _ => inversion H; clear H; subst
    | H : Match (Grp _) _ _ |- _ => inversion H; clear H; subst
    | H : Match (Alt _ _) _ _ |- _ => inversion H; clear H; subst
    end.

(** ** The extractor *)




(** The shape of a match of the header pattern; its one group is the
    text of the digits. *)
Lemma header_match_shape w cs :
  Match header_re w cs ->
  exists ws1 ws2 ws3 ds ws4,
    w = T "internalField" ++ ws1 ++ T "nonuniform" ++ ws2 ++ T "List<vector>"
        ++ ws3 ++ nl ++ ds ++ ws4 ++ nl ++ T "("
    /\ cs = [ds]
    /\ all is_digit ds /\ 1 <= length ds
    /\ all is_space ws1 /\ all is_space ws2 /\ all is_space ws3
    /\ all is_space ws4.
Proof.
  unfold header_re, plus, star. intros H. inv_match.
  do 5 eexists. repeat split; eauto.
Qed.


(** The extractor accepts exactly when the header is found and the text
    after the first [internalField] holds at least the declared number
    of vector-shaped matches. *)
Lemma extract_inr txtC n :
  extract txtC = inr n <->
  exists mt pre block,
    re_search header_re txtC = Some mt
    /\ n = declared mt
    /\ split_once (T "internalField") txtC = Some (pre, block)
    /\ n <= length (re_findall vector_re block).
Proof.
  unfold extract, declared. split.
  - destruct (re_search header_re txtC) as [mt|]; [|discriminate].
    destruct (split_once _ txtC) as [[pre block]|]; [|discriminate].
    destruct (Nat.ltb_spec (length (re_findall vector_re block))
                           (int_of_text (nth 0 (f_groups mt) [])));
      [discriminate|].
    intros [= <-]. now exists mt, pre, block.
  - intros (mt & pre & block & -> & -> & -> & Hle).
    apply Nat.ltb_ge in Hle. now rewrite Hle.
Qed.





(** ** The noise *)

Lemma set_col_rows_Some j v : forall U,
  length v = length U ->
  exists R, set_col_rows j v U = Some R
            /\ length R = length U
            /\ forall i, i <> j -> i < 2 \/ j < 2 ->
                         map (col i) R = map (col i) U.
Proof.
  induction v as [|a v IH]; intros [|u U]; simpl; try discriminate.
  - exists []. auto.
  - intros [= Hl]. destruct (IH _ Hl) as (R & -> & HR & Hcol).
    exists (set_row j a u :: R). simpl. repeat split; auto.
    intros i Hi Hlt. rewrite (Hcol i Hi Hlt). f_equal.
    destruct u as [[x y] z].
    destruct j as [|[|j]], i as [|[|i]]; simpl; try congruence; lia.
Qed.

Lemma set_col_rows_col j v : forall U R,
  j < 3 -> set_col_rows j v U = Some R -> map (col j) R = v.
Proof.
  induction v as [|a v IH]; intros [|u U] R Hj; simpl; try discriminate.
  - now intros [= <-].
  - destruct (set_col_rows j v U) as [R'|] eqn:HR; [|discriminate].
    intros [= <-]. simpl. rewrite (IH _ _ Hj HR). f_equal.
    destruct u as [[x y] z].
    destruct j as [|[|[|j]]]; simpl; try reflexivity; lia.
Qed.

Lemma length_recenter v : length (recenter v) = length v.
Proof.
  unfold recenter. destruct v as [|a v]; [reflexivity|].
  cbn [mean]. apply length_map.
Qed.

Lemma col0_ones n : map (col 0) (ones n) = repeat 1%Qc n.
Proof.
  unfold ones. induction n as [|n IH]; simpl; [reflexivity|]. now rewrite IH.
Qed.

Section NoiseSpec.
Variable rng : Type.
Variable default_rng : Z -> rng.
Variable next_normal : rng -> Qc * rng.

Local Abbreviation standard_normal := (standard_normal next_normal).
Local Abbreviation noise := (noise default_rng next_normal).
Local Abbreviation sample_y := (sample_y default_rng next_normal).
Local Abbreviation sample_z := (sample_z default_rng next_normal).

Lemma length_standard_normal n : forall g,
  length (fst (standard_normal g n)) = n.
Proof.
  induction n as [|n IH]; intros g; simpl; [reflexivity|].
  destruct (next_normal g) as [x g1]. specialize (IH g1).
  destruct (standard_normal g1 n) as [xs g2]. simpl in *. congruence.
Qed.

(** The noise stage never fails: it gives [nCells] rows whose columns are
    the constant one and the two recentred and scaled samples. *)
Lemma noise_inr seed amp nCells :
  exists U,
    noise seed amp nCells = inr U
    /\ length U = nCells
    /\ map (col 0) U = repeat 1%Qc nCells
    /\ map (col 1) U = scale amp (recenter (sample_y seed nCells))
    /\ map (col 2) U = scale amp (recenter (sample_z seed nCells)).
Proof.
  unfold noise, sample_y, sample_z.
  pose proof (length_standard_normal nCells (default_rng seed)) as Hy.
  destruct (standard_normal (default_rng seed) nCells) as [Uy g1].
  cbn [fst snd] in *.
  pose proof (length_standard_normal nCells g1) as Hz.
  destruct (standard_normal g1 nCells) as [Uz g2]. simpl in *.
  destruct (set_col_rows_Some 1 (scale amp (recenter Uy)) (ones nCells))
    as (U1 & H1 & HL1 & Hc1).
  { unfold scale, ones. now rewrite length_map, length_recenter, repeat_length. }
  unfold set_col. simpl. rewrite H1.
  destruct (set_col_rows_Some 2 (scale amp (recenter Uz)) U1)
    as (U2 & H2 & HL2 & Hc2).
  { unfold scale, ones in *.
    now rewrite length_map, length_recenter, HL1, repeat_length. }
  rewrite H2. exists U2. unfold ones in *. rewrite repeat_length in HL1.
  repeat split.
  - congruence.
  - rewrite (Hc2 0), (Hc1 0); try lia. apply col0_ones.
  - rewrite (Hc2 1); try lia. apply set_col_rows_col in H1; [exact H1|lia].
  - apply set_col_rows_col in H2; [exact H2|lia].
Qed.
End NoiseSpec.

(** ** The new entry *)

Lemma strip_keep a b body :
  is_space a = false -> is_space b = false ->
  strip (a :: body ++ [b; LF]) = a :: body ++ [b].
Proof.
  intros Ha Hb. unfold strip. cbn [lstrip]. rewrite Ha.
  cbn [rev]. rewrite rev_app_distr. cbn [rev app lstrip].
  change (is_space LF) with true. cbv iota. rewrite Hb.
  cbn [rev]. rewrite rev_app_distr, rev_involutive. reflexivity.
Qed.

(** [new_internal.strip() + "\n"] is [new_internal] itself. *)
Lemma strip_new_internal nCells U :
  strip (new_internal nCells U) ++ nl = new_internal nCells U.
Proof.
  set (body := T "nternalField   nonuniform List<vector>" ++ nl
               ++ nat_to_text nCells ++ nl ++ T "(" ++ nl ++ Ulist U ++ nl
               ++ T ")").
  assert (H : new_internal nCells U = "i"%char :: body ++ [";"%char; LF]).
  { unfold new_internal, body, nl. cbn [T list_ascii_of_string app].
    repeat first [rewrite <- app_assoc | progress cbn [app]]. reflexivity. }
  rewrite H, strip_keep by reflexivity.
  unfold nl. cbn [app]. now rewrite <- app_assoc.
Qed.

(** ** The replacement *)

(** The replacement succeeds exactly on a match of the primary or of the
    secondary pattern, and puts [new_internal] in the place of the
    leftmost match. *)
Lemma replace_inr new txtU txtU2 :
  strip new ++ nl = new ->
  replace_internalField new txtU = inr txtU2 ->
  exists f,
    (re_search primary_re txtU = Some f
     \/ (re_search primary_re txtU = None
         /\ re_search secondary_re txtU = Some f))
    /\ txtU = f_pre f ++ f_match f ++ f_post f
    /\ txtU2 = f_pre f ++ new ++ f_post f.
Proof.
  intros Hstrip. unfold replace_internalField, re_subn1. rewrite Hstrip.
  destruct (re_search primary_re txtU) as [f|] eqn:H1; simpl.
  - intros [= <-]. exists f. repeat split; auto.
    now apply re_search_Some in H1.
  - destruct (re_search secondary_re txtU) as [f|] eqn:H2; simpl;
      [|discriminate].
    intros [= <-]. exists f. repeat split; auto.
    now apply re_search_Some in H2.
Qed.

Lemma replace_inl new txtU :
  ~ occurs primary_re txtU -> ~ occurs secondary_re txtU ->
  replace_internalField new txtU = inl NoInternalField.
Proof.
  intros H1 H2. apply re_search_None in H1, H2.
  unfold replace_internalField, re_subn1. now rewrite H1, H2.
Qed.


(** ** Paths *)

Lemma bak_eq case : bak case = case ++ [T "0"; T "U.bak"].
Proof.
  unfold bak, Ufile, with_suffix. rewrite rev_app_distr. cbn [rev app].
  rewrite rev_involutive, <- app_assoc. reflexivity.
Qed.

Lemma bak_neq_Ufile case : bak case <> Ufile case.
Proof.
  rewrite bak_eq. unfold Ufile. intros H. apply app_inv_head in H.
  discriminate.
Qed.

Lemma bak_neq_Cfile case : bak case <> Cfile case.
Proof.
  rewrite bak_eq. unfold Cfile. intros H. apply app_inv_head in H.
  discriminate.
Qed.

Lemma Ufile_neq_Cfile case : Ufile case <> Cfile case.
Proof.
  unfold Ufile, Cfile. intros H. apply app_inv_head in H. discriminate.
Qed.

(** ** The run *)

Section MainSpec.
Variable rng : Type.
Variable default_rng : Z -> rng.
Variable next_normal : rng -> Qc * rng.
Variable case : path.

Local Abbreviation run_main := (main default_rng next_normal case).
Local Abbreviation noise := (noise default_rng next_normal).
Local Abbreviation Ufile := (Ufile case).
Local Abbreviation Cfile := (Cfile case).
Local Abbreviation bak := (bak case).

(** The world after the backup and the overwrite. *)
Local Abbreviation written w txtU txtU2 :=
  (World (fun q => if path_eq_dec q Ufile then Some txtU2
                   else if path_eq_dec q bak then Some txtU
                   else files w q)
         ((writes w ++ [(bak, txtU)]) ++ [(Ufile, txtU2)])).

Lemma main_eq w txtU txtC :
  files w Ufile = Some txtU -> files w Cfile = Some txtC ->
  run_main w =
  match extract txtC with
  | inl e => (inl e, w)
  | inr nCells =>
      match noise seed amp nCells with
      | inl e => (inl e, w)
      | inr U =>
          match replace_internalField (new_internal nCells U) txtU with
          | inl e => (inl e, w)
          | inr txtU2 => (inr tt, written w txtU txtU2)
          end
      end
  end.
Proof.
  intros HU HC.
  unfold main, bind, exists_, read_text, lift, raise, write_text.
  repeat (rewrite ?HU, ?HC; cbn [negb files]).
  destruct (extract txtC) as [e|nCells]; [reflexivity|].
  destruct (noise seed amp nCells) as [e|U]; [reflexivity|].
  destruct (replace_internalField _ txtU) as [e|txtU2]; reflexivity.
Qed.

Lemma main_missing w :
  files w Ufile = None \/ files w Cfile = None ->
  exists p, run_main w = (inl (MissingFile p), w).
Proof.
  unfold main, bind, exists_, read_text, lift, raise, write_text.
  destruct (files w Ufile) eqn:HU, (files w Cfile) eqn:HC;
    intros [H|H]; try discriminate; cbn [negb]; eauto.
Qed.

(** A run that fails leaves the world as it was. *)
Lemma main_error_keeps_world w e w' : run_main w = (inl e, w') -> w' = w.
Proof.
  destruct (files w Ufile) as [txtU|] eqn:HU;
    [destruct (files w Cfile) as [txtC|] eqn:HC|].
  - rewrite (main_eq _ _ _ HU HC).
    destruct (extract txtC); [congruence|].
    destruct (noise seed amp _); [congruence|].
    destruct (replace_internalField _ txtU); congruence.
  - destruct (main_missing w (or_intror HC)) as [p ->]. congruence.
  - destruct (main_missing w (or_introl HU)) as [p ->]. congruence.
Qed.

(** A run that succeeds went through the three stages. *)
Lemma main_success w w' :
  run_main w = (inr tt, w') ->
  exists txtU txtC nCells U txtU2,
    files w Ufile = Some txtU
    /\ files w Cfile = Some txtC
    /\ extract txtC = inr nCells
    /\ noise seed amp nCells = inr U
    /\ replace_internalField (new_internal nCells U) txtU = inr txtU2
    /\ w' = written w txtU txtU2.
Proof.
  destruct (files w Ufile) as [txtU|] eqn:HU;
    [destruct (files w Cfile) as [txtC|] eqn:HC|].
  - rewrite (main_eq _ _ _ HU HC).
    destruct (extract txtC) as [|nCells] eqn:He; [discriminate|].
    destruct (noise seed amp _) as [|U] eqn:Hn; [discriminate|].
    destruct (replace_internalField _ txtU) as [|txtU2] eqn:Hr;
      [discriminate|].
    intros [= <-]. now exists txtU, txtC, nCells, U, txtU2.
  - destruct (main_missing w (or_intror HC)) as [p ->]. discriminate.
  - destruct (main_missing w (or_introl HU)) as [p ->]. discriminate.
Qed.

Lemma files_written w txtU txtU2 :
  files (written w txtU txtU2) Ufile = Some txtU2
  /\ files (written w txtU txtU2) bak = Some txtU
  /\ forall p, p <> bak -> p <> Ufile ->
               files (written w txtU txtU2) p = files w p.
Proof.
  cbn [files]. repeat split.
  - destruct (path_eq_dec Ufile Ufile); congruence.
  - destruct (path_eq_dec bak Ufile) as [H|_];
      [now destruct (bak_neq_Ufile _ H)|].
    destruct (path_eq_dec bak bak); congruence.
  - intros p Hb Hu. destruct (path_eq_dec p Ufile); [congruence|].
    destruct (path_eq_dec p bak); congruence.
Qed.

(** Without a match of either pattern the third stage raises its error
    before any write. *)
Lemma main_no_match w txtU txtC nCells :
  files w Ufile = Some txtU ->
  ~ occurs primary_re txtU -> ~ occurs secondary_re txtU ->
  files w Cfile = Some txtC -> extract txtC = inr nCells ->
  run_main w = (inl NoInternalField, w).
Proof.
  intros HU H1 H2 HC He. rewrite (main_eq _ _ _ HU HC), He.
  destruct (noise_inr _ default_rng next_normal seed amp nCells)
    as (U & -> & _).
  now rewrite (replace_inl _ _ H1 H2).
Qed.

(** C7: when neither pattern matches the text of 0/U, the run fails and
    the world is what it was (no backup, no overwrite); the error is the
    pattern-not-found error as soon as the cell count could be read from
    0/C. *)
Theorem no_match_no_write w txtU :
  files w Ufile = Some txtU ->
  ~ occurs primary_re txtU -> ~ occurs secondary_re txtU ->
  (exists e, run_main w = (inl e, w))
  /\ (forall txtC nCells,
        files w Cfile = Some txtC -> extract txtC = inr nCells ->
        run_main w = (inl NoInternalField, w)).
Proof.
  intros HU H1 H2. split.
  - destruct (files w Cfile) as [txtC|] eqn:HC.
    + rewrite (main_eq _ _ _ HU HC).
      destruct (extract txtC) as [e|nCells]; [now exists e|].
      destruct (noise seed amp nCells) as [e|U]; [now exists e|].
      rewrite (replace_inl _ _ H1 H2). now exists NoInternalField.
    + destruct (main_missing w (or_intror HC)) as [p Hp]. eauto.
  - intros txtC nCells HC He. eapply main_no_match; eauto.
Qed.



End MainSpec.

Lemma no_match_no_write_witness :
  Sample.run (Sample.mk_world Sample.U_no_entry Sample.C3)
  = (inl NoInternalField, Sample.mk_world Sample.U_no_entry Sample.C3).
Proof.
  apply (proj2 (no_match_no_write _ Sample.lcg_seed Sample.lcg_next
                  Sample.case (Sample.mk_world Sample.U_no_entry Sample.C3)
                  Sample.U_no_entry
                  ltac:(vm_compute; reflexivity)
                  ltac:(apply (proj1 (re_search_None _ _));
                        vm_compute; reflexivity)
                  ltac:(apply (proj1 (re_search_None _ _));
                        vm_compute; reflexivity))
               Sample.C3 3).
  - vm_compute. reflexivity.
  - vm_compute. reflexivity.
Defined.




(** ** The primary pattern and the nonuniform form *)

Lemma Match_Cat_inv r1 r2 w cs :
  Match (Cat r1 r2) w cs ->
  exists w1 w2 c1 c2,
    w = w1 ++ w2 /\ cs = c1 ++ c2 /\ Match r1 w1 c1 /\ Match r2 w2 c2.
Proof.
  intros H. inversion H as [| |? ? w1 w2 c1 c2 M1 M2| | |]; subst.
  now exists w1, w2, c1, c2.
Qed.

Lemma Match_Lit_inv l w cs : Match (Lit l) w cs -> w = l /\ cs = [].
Proof. intros H. inversion H; subst. auto. Qed.

Lemma Match_Rep_inv c n g w cs :
  Match (Rep c n g) w cs -> all c w /\ n <= length w /\ cs = [].
Proof. intros H. inversion H; subst. auto. Qed.

Lemma Match_last_lit r : forall w cs b,
  last_lit r = Some b -> Match r w cs -> exists w', w = w' ++ b.
Proof.
  induction r as [l|c n g|r1 _ r2 IH2|r1 _ r2 _|r _]; intros w cs b Hl HM;
    simpl in Hl; try discriminate.
  - injection Hl as <-. apply Match_Lit_inv in HM as [-> _]. now exists [].
  - apply Match_Cat_inv in HM as (w1 & w2 & c1 & c2 & -> & _ & _ & M2).
    destruct (IH2 _ _ _ Hl M2) as [w' ->]. exists (w1 ++ w').
    now rewrite app_assoc.
Qed.

(** The nonuniform alternative ends with a semicolon of its own, and the
    pattern asks for one more after it: a match through this alternative
    ends with two semicolons that only white space separates. *)
Lemma primary_match_shape w cs :
  Match primary_re w cs ->
  (exists ws1 ws2 body ws3,
      w = T "internalField" ++ ws1 ++ T "uniform" ++ ws2 ++ T "(" ++ body
          ++ T ")" ++ ws3 ++ T ";"
      /\ all is_space ws1 /\ 1 <= length ws1
      /\ all not_rparen body /\ 1 <= length body)
  \/ (exists ws1 rest ws2,
         w = T "internalField" ++ ws1 ++ T "nonuniform" ++ rest
             ++ T ";" ++ ws2 ++ T ";"
         /\ all is_space ws2).
Proof.
  unfold primary_re. intros H.
  apply Match_Cat_inv in H as (x1 & y1 & ? & ? & -> & _ & H1 & H).
  apply Match_Lit_inv in H1 as [-> _].
  apply Match_Cat_inv in H as (ws1 & y2 & ? & ? & -> & _ & Hws1 & H).
  apply Match_Rep_inv in Hws1 as (Hws1 & Lws1 & _).
  apply Match_Cat_inv in H as (mid & y3 & ? & ? & -> & _ & Hmid & H).
  apply Match_Cat_inv in H as (ws3 & y4 & ? & ? & -> & _ & H3 & H4).
  apply Match_Rep_inv in H3 as (Hws3 & _).
  apply Match_Lit_inv in H4 as [-> _].
  inversion Hmid as [| | |? ? ? ? HU|? ? ? ? HN|]; subst.
  - left. unfold uniform_branch in HU.
    apply Match_Cat_inv in HU as (u1 & z1 & ? & ? & -> & _ & U1 & HU).
    apply Match_Lit_inv in U1 as [-> _].
    apply Match_Cat_inv in HU as (ws2 & z2 & ? & ? & -> & _ & _ & HU).
    apply Match_Cat_inv in HU as (u3 & z3 & ? & ? & -> & _ & U3 & HU).
    apply Match_Lit_inv in U3 as [-> _].
    apply Match_Cat_inv in HU as (body & z4 & ? & ? & -> & _ & U4 & U5).
    apply Match_Rep_inv in U4 as (Hbody & Hlen & _).
    apply Match_Lit_inv in U5 as [-> _].
    exists ws1, ws2, body, ws3. repeat split; auto.
    now rewrite <- !app_assoc.
  - right. unfold nonuniform_branch in HN.
    apply Match_Cat_inv in HN as (n1 & z1 & ? & ? & -> & _ & N1 & HN).
    apply Match_Lit_inv in N1 as [-> _].
    apply Match_last_lit with (b := T ";") in HN as [rest ->];
      [|reflexivity].
    exists ws1, rest, ws3. split; auto.
    now rewrite <- !app_assoc.
Qed.

(** The uniform form is matched by the primary pattern. *)
Lemma primary_matches_uniform pre ws1 ws2 body ws3 post :
  all is_space ws1 -> 1 <= length ws1 ->
  all is_space ws2 -> 1 <= length ws2 ->
  all not_rparen body -> 1 <= length body ->
  all is_space ws3 ->
  occurs primary_re
    (pre ++ (T "internalField" ++ ws1 ++ T "uniform" ++ ws2 ++ T "(" ++ body
             ++ T ")" ++ ws3 ++ T ";") ++ post).
Proof.
  intros H1 L1 H2 L2 Hb Lb H3.
  exists pre, (T "internalField" ++ ws1 ++ T "uniform" ++ ws2 ++ T "(" ++ body
               ++ T ")" ++ ws3 ++ T ";"), post.
  eexists. split; [reflexivity|].
  unfold primary_re, uniform_branch, plus, star.
  apply MCat; [constructor|].
  replace (ws1 ++ T "uniform" ++ ws2 ++ T "(" ++ body ++ T ")" ++ ws3 ++ T ";")
    with (ws1 ++ (T "uniform" ++ ws2 ++ T "(" ++ body ++ T ")")
              ++ ws3 ++ T ";")
    by now rewrite <- !app_assoc.
  apply MCat; [now constructor|].
  apply MCat; [|apply MCat; [constructor; [assumption|lia]|constructor]].
  apply MAltL.
  repeat (apply MCat; [first [now constructor|constructor]|]).
  constructor.
Qed.

(** Every match of the secondary pattern starts with a match of the
    primary one: the second replacement of the script never applies. *)
Lemma secondary_implies_primary txtU :
  occurs secondary_re txtU -> occurs primary_re txtU.
Proof.
  intros (pre & w & post & cs & -> & HM). unfold secondary_re in HM.
  apply Match_Cat_inv in HM as (lit1 & tl1 & ? & ? & -> & _ & H1 & HM).
  apply Match_Lit_inv in H1 as [-> _].
  apply Match_Cat_inv in HM as (ws1 & tl2 & ? & ? & -> & _ & H2 & HM).
  apply Match_Rep_inv in H2 as (Hws1 & L1 & _).
  apply Match_Cat_inv in HM as (lit3 & tl3 & ? & ? & -> & _ & H3 & HM).
  apply Match_Lit_inv in H3 as [-> _].
  apply Match_Cat_inv in HM as (ws2 & tl4 & ? & ? & -> & _ & H4 & HM).
  apply Match_Rep_inv in H4 as (Hws2 & L2 & _).
  apply Match_Cat_inv in HM as (lit5 & tl5 & ? & ? & -> & _ & H5 & HM).
  apply Match_Lit_inv in H5 as [-> _].
  apply Match_Cat_inv in HM as (body & tl6 & ? & ? & -> & _ & H6 & HM).
  apply Match_Rep_inv in H6 as (Hbody & Lb & _).
  apply Match_Cat_inv in HM as (lit7 & ws3 & ? & ? & -> & _ & H7 & H8).
  apply Match_Lit_inv in H7 as [-> _].
  pose proof (primary_matches_uniform pre ws1 ws2 body [] (ws3 ++ post)
                Hws1 L1 Hws2 L2 Hbody Lb (Forall_nil _)) as Hp.
  replace (pre ++ (T "internalField" ++ ws1 ++ T "uniform" ++ ws2 ++ T "("
                   ++ body ++ T ");" ++ ws3) ++ post)
    with (pre ++ (T "internalField" ++ ws1 ++ T "uniform" ++ ws2 ++ T "("
                  ++ body ++ T ")" ++ [] ++ T ";") ++ ws3 ++ post);
    [exact Hp|].
  repeat first [rewrite <- app_assoc | progress cbn [app T list_ascii_of_string]].
  reflexivity.
Qed.

(** A worked example: a file 0/U in the nonuniform form, such as the one
    the script writes, is matched by neither pattern, and the run on it
    raises the pattern-not-found error, for every generator; a second run
    on the result of a first run fails in the same way. *)
Example nonuniform_entry_not_replaced :
  re_search primary_re Sample.U_nonuniform = None
  /\ re_search secondary_re Sample.U_nonuniform = None
  /\ (forall rng (default_rng : Z -> rng) (next_normal : rng -> Qc * rng),
        main default_rng next_normal Sample.case
             (Sample.mk_world Sample.U_nonuniform Sample.C3)
        = (inl NoInternalField,
           Sample.mk_world Sample.U_nonuniform Sample.C3))
  /\ fst (Sample.run (Sample.mk_world Sample.U_uniform Sample.C3)) = inr tt
  /\ fst (Sample.run
            (snd (Sample.run (Sample.mk_world Sample.U_uniform Sample.C3))))
     = inl NoInternalField.
Proof.
  assert (H1 : re_search primary_re Sample.U_nonuniform = None)
    by (vm_compute; reflexivity).
  assert (H2 : re_search secondary_re Sample.U_nonuniform = None)
    by (vm_compute; reflexivity).
  repeat split; auto.
  - intros rng default_rng next_normal.
    apply main_no_match with (txtU := Sample.U_nonuniform)
                             (txtC := Sample.C3) (nCells := 3).
    + vm_compute. reflexivity.
    + now apply re_search_None.
    + now apply re_search_None.
    + vm_compute. reflexivity.
    + vm_compute. reflexivity.
Qed.

(** * Further properties of the script *)

(** ** The replacement in 0/U *)

Lemma occurs_app_l r pre s : occurs r s -> occurs r (pre ++ s).
Proof.
  intros (a & w & b & cs & -> & HM). exists (pre ++ a), w, b, cs.
  now rewrite <- app_assoc.
Qed.

Lemma occurs_app_r r s post : occurs r s -> occurs r (s ++ post).
Proof.
  intros (a & w & b & cs & -> & HM). exists a, w, (b ++ post), cs.
  now rewrite <- !app_assoc.
Qed.

Lemma occurs_Match r w cs : Match r w cs -> occurs r w.
Proof.
  intros HM. exists [], w, [], cs. now rewrite app_nil_r.
Qed.

(** A match of the primary pattern holds the start of a uniform entry or
    two semicolons that only white space separates. *)
Lemma primary_needs txtU :
  occurs primary_re txtU ->
  occurs uniform_head_re txtU \/ occurs two_semicolons_re txtU.
Proof.
  intros (pre & w & post & cs & -> & HM).
  apply primary_match_shape in HM
    as [(ws1 & ws2 & body & ws3 & -> & H1 & L1 & _)
       |(ws1 & rest & ws2 & -> & H2)].
  - left. apply occurs_app_l, occurs_app_r.
    replace (T "internalField" ++ ws1 ++ T "uniform" ++ ws2 ++ T "(" ++ body
             ++ T ")" ++ ws3 ++ T ";")
      with ((T "internalField" ++ ws1 ++ T "uniform")
            ++ ws2 ++ T "(" ++ body ++ T ")" ++ ws3 ++ T ";")
      by now rewrite <- !app_assoc.
    apply occurs_app_r. eapply occurs_Match. unfold uniform_head_re, plus.
    apply MCat; [constructor|]. apply MCat; constructor; assumption.
  - right. apply occurs_app_l, occurs_app_r.
    replace (T "internalField" ++ ws1 ++ T "nonuniform" ++ rest
             ++ T ";" ++ ws2 ++ T ";")
      with ((T "internalField" ++ ws1 ++ T "nonuniform" ++ rest)
            ++ T ";" ++ ws2 ++ T ";")
      by now rewrite <- !app_assoc.
    apply occurs_app_l. eapply occurs_Match. unfold two_semicolons_re, star.
    apply MCat; [constructor|]. apply MCat; constructor; [assumption|lia].
Qed.

(** X6: the nonuniform alternative of the primary pattern closes with a
    semicolon and the pattern asks for one more: a text that holds neither
    the start of a uniform entry nor two semicolons separated by white
    space only is refused, whatever nonuniform entry it holds. *)
Theorem nonuniform_needs_two_semicolons new txtU :
  ~ occurs uniform_head_re txtU -> ~ occurs two_semicolons_re txtU ->
  replace_internalField new txtU = inl NoInternalField.
Proof.
  intros Hu Hs.
  assert (Hp : ~ occurs primary_re txtU).
  { intros H. apply primary_needs in H as [H|H]; auto. }
  apply replace_inl; [exact Hp|].
  intros H. apply Hp. now apply secondary_implies_primary.
Qed.

Lemma nonuniform_needs_two_semicolons_witness :
  replace_internalField (T "internalField uniform (1 0 0);")
                        Sample.U_nonuniform
  = inl NoInternalField.
Proof.
  apply nonuniform_needs_two_semicolons.
  - apply (proj1 (re_search_None _ _)). vm_compute. reflexivity.
  - apply (proj1 (re_search_None _ _)). vm_compute. reflexivity.
Defined.

(** X5: the second replacement of the script is never the one that applies:
    where the primary pattern finds nothing, the secondary pattern finds
    nothing either. *)
Theorem fallback_never_applies txtU :
  re_search primary_re txtU = None -> re_search secondary_re txtU = None.
Proof.
  intros H. apply re_search_None. apply re_search_None in H.
  intros Hs. apply H. now apply secondary_implies_primary.
Qed.

Lemma fallback_never_applies_witness :
  re_search secondary_re Sample.U_nonuniform = None.
Proof.
  apply fallback_never_applies. vm_compute. reflexivity.
Defined.

(** X4: a successful replacement changes the leftmost match of the primary
    pattern and nothing else: the text before it and the text after it
    are kept as they are. *)
Theorem replace_leftmost_only nCells U txtU txtU2 :
  replace_internalField (new_internal nCells U) txtU = inr txtU2 ->
  exists pre old post cs,
    txtU = pre ++ old ++ post
    /\ txtU2 = pre ++ new_internal nCells U ++ post
    /\ Match primary_re old cs
    /\ forall pre' w post' cs',
         txtU = pre' ++ w ++ post' -> Match primary_re w cs' ->
         length pre <= length pre'.
Proof.
  intros H. apply replace_inr in H as (f & Hf & Hs & ->);
    [|apply strip_new_internal].
  destruct Hf as [Hf|[Hnone Hf]].
  - apply re_search_Some in Hf as (_ & HM & Hleft).
    now exists (f_pre f), (f_match f), (f_post f), (f_groups f).
  - exfalso. apply re_search_None in Hnone. apply Hnone.
    apply secondary_implies_primary.
    apply re_search_Some in Hf as (_ & HM & _). rewrite Hs.
    apply occurs_app_l, occurs_app_r. eapply occurs_Match; eauto.
Qed.

Lemma replace_leftmost_only_witness :
  exists txtU2 pre old post,
    replace_internalField (new_internal 0 []) Sample.U_uniform_inlet
    = inr txtU2
    /\ Sample.U_uniform_inlet = pre ++ old ++ post
    /\ txtU2 = pre ++ new_internal 0 [] ++ post.
Proof.
  destruct (replace_internalField (new_internal 0 []) Sample.U_uniform_inlet)
    as [e|txtU2] eqn:H; [vm_compute in H; discriminate|].
  destruct (replace_leftmost_only 0 [] _ _ H)
    as (pre & old & post & cs & H1 & H2 & _).
  exists txtU2, pre, old, post. split; [reflexivity|]. split; assumption.
Defined.

(** ** The outcomes of a run *)


Section RunSpec.
Variable rng : Type.
Variable default_rng : Z -> rng.
Variable next_normal : rng -> Qc * rng.
Variable case : path.

Local Abbreviation run_main := (main default_rng next_normal case).
Local Abbreviation noise := (noise default_rng next_normal).
Local Abbreviation Ufile := (Ufile case).
Local Abbreviation Cfile := (Cfile case).
Local Abbreviation bak := (bak case).



(** X3: no run changes 0/C, nor any file other than 0/U and 0/U.bak. *)
Theorem only_U_and_backup_written w r w' :
  run_main w = (r, w') ->
  files w' Cfile = files w Cfile
  /\ forall p, p <> Ufile -> p <> bak -> files w' p = files w p.
Proof.
  intros H.
  assert (Hother : forall p, p <> Ufile -> p <> bak ->
                             files w' p = files w p).
  { destruct r as [e|[]].
    - apply main_error_keeps_world in H. now subst w'.
    - apply main_success in H
        as (txtU & txtC & nCells & U & txtU2 & _ & _ & _ & _ & _ & ->).
      intros p Hu Hb. now apply files_written. }
  split; [|exact Hother].
  apply Hother.
  - intros E. exact (Ufile_neq_Cfile case (eq_sym E)).
  - intros E. exact (bak_neq_Cfile case (eq_sym E)).
Qed.
End RunSpec.


Lemma only_U_and_backup_written_witness :
  files (snd (Sample.run (Sample.mk_world Sample.U_uniform Sample.C3)))
        (Cfile Sample.case)
  = files (Sample.mk_world Sample.U_uniform Sample.C3) (Cfile Sample.case).
Proof.
  apply (proj1 (only_U_and_backup_written _ Sample.lcg_seed Sample.lcg_next
                  Sample.case (Sample.mk_world Sample.U_uniform Sample.C3)
                  (inr tt)
                  (snd (Sample.run
                          (Sample.mk_world Sample.U_uniform Sample.C3)))
                  ltac:(vm_compute; reflexivity))).
Defined.


(** ** Decimal digits *)

Lemma digit_cases d : (0 <= d <= 9)%Z ->
  d = 0%Z \/ d = 1%Z \/ d = 2%Z \/ d = 3%Z \/ d = 4%Z \/ d = 5%Z
  \/ d = 6%Z \/ d = 7%Z \/ d = 8%Z \/ d = 9%Z.
Proof. lia. Qed.

Lemma digit_char_is_digit d : (0 <= d <= 9)%Z -> is_digit (digit_char d) = true.
Proof.
  intros H. destruct (digit_cases d H) as [->|[->|[->|[->|[->|[->|[->|[->|[->| ->]]]]]]]]];
    reflexivity.
Qed.

Lemma digit_val_char d : (0 <= d <= 9)%Z -> digit_val (digit_char d) = Z.to_nat d.
Proof.
  intros H. destruct (digit_cases d H) as [->|[->|[->|[->|[->|[->|[->|[->|[->| ->]]]]]]]]];
    reflexivity.
Qed.

Lemma int_of_text_snoc l a :
  int_of_text (l ++ [a]) = 10 * int_of_text l + digit_val a.
Proof. unfold int_of_text. now rewrite fold_left_app. Qed.

Lemma digits_fuel_all fuel : forall n,
  (0 <= n)%Z -> all is_digit (digits_fuel fuel n).
Proof.
  induction fuel as [|f IH]; intros n Hn; simpl; [constructor|].
  destruct (Z.ltb_spec n 10).
  - repeat constructor. apply digit_char_is_digit. lia.
  - apply Forall_app. split.
    + apply IH. apply Z.div_pos; lia.
    + repeat constructor. apply digit_char_is_digit.
      pose proof (Z.mod_pos_bound n 10). lia.
Qed.

Lemma digits_fuel_value fuel : forall n,
  (0 <= n < 10 ^ Z.of_nat fuel)%Z ->
  int_of_text (digits_fuel fuel n) = Z.to_nat n.
Proof.
  induction fuel as [|f IH]; intros n Hn.
  - simpl in *. replace n with 0%Z by lia. reflexivity.
  - cbn [digits_fuel]. rewrite Nat2Z.inj_succ, Z.pow_succ_r in Hn by lia.
    destruct (Z.ltb_spec n 10).
    + unfold int_of_text. simpl. rewrite digit_val_char by lia. lia.
    + rewrite int_of_text_snoc, IH, digit_val_char.
      * pose proof (Z.div_mod n 10 ltac:(lia)) as E.
        pose proof (Z.mod_pos_bound n 10 ltac:(lia)).
        assert (0 <= n / 10)%Z by (apply Z.div_pos; lia).
        rewrite E at 3. rewrite Z2Nat.inj_add, Z2Nat.inj_mul by lia.
        reflexivity.
      * pose proof (Z.mod_pos_bound n 10). lia.
      * split; [apply Z.div_pos; lia|].
        apply Z.div_lt_upper_bound; lia.
Qed.

Lemma pow2_le_pow10 k : (0 <= k)%Z -> (2 ^ k <= 10 ^ k)%Z.
Proof. intros H. apply Z.pow_le_mono_l. lia. Qed.

(** The fuel of [Z_to_text] is enough. *)
Lemma Z_to_text_fuel n :
  (0 <= n)%Z -> (n < 10 ^ Z.of_nat (S (Z.to_nat (Z.log2 n))))%Z.
Proof.
  intros Hn. rewrite Nat2Z.inj_succ, Z2Nat.id by apply Z.log2_nonneg.
  destruct (Z.eq_dec n 0) as [->|Hz]; [reflexivity|].
  pose proof (Z.log2_spec n ltac:(lia)) as [_ Hlt].
  pose proof (pow2_le_pow10 (Z.succ (Z.log2 n))
                ltac:(pose proof (Z.log2_nonneg n); lia)).
  lia.
Qed.

Lemma int_of_text_nat_to_text n : int_of_text (nat_to_text n) = n.
Proof.
  unfold nat_to_text, Z_to_text.
  rewrite digits_fuel_value; [apply Nat2Z.id|].
  split; [lia|]. apply Z_to_text_fuel. lia.
Qed.

Lemma nat_to_text_digits n :
  all is_digit (nat_to_text n) /\ 1 <= length (nat_to_text n).
Proof.
  unfold nat_to_text, Z_to_text. split.
  - apply digits_fuel_all. lia.
  - cbn [digits_fuel]. destruct (Z.of_nat n <? 10)%Z; [simpl; lia|].
    rewrite length_app. simpl. lia.
Qed.

(** X7: the count that the script writes into the entry is read back by
    [int]: [int(f"{n}") = n]. *)
Theorem int_of_nat_to_text n :
  int_of_text (nat_to_text n) = n
  /\ all is_digit (nat_to_text n)
  /\ 1 <= length (nat_to_text n).
Proof.
  split; [apply int_of_text_nat_to_text|apply nat_to_text_digits].
Qed.

(** ** The format [.8e] *)

Section FormatSpec.
Local Open Scope Z_scope.

Lemma digits_fuel_bounds fuel : forall n,
  1 <= n < 10 ^ Z.of_nat fuel ->
  1 <= Z.of_nat (length (digits_fuel fuel n))
  /\ 10 ^ (Z.of_nat (length (digits_fuel fuel n)) - 1) <= n
     < 10 ^ Z.of_nat (length (digits_fuel fuel n)).
Proof.
  induction fuel as [|f IH]; intros n Hn.
  - simpl in Hn. lia.
  - cbn [digits_fuel]. rewrite Nat2Z.inj_succ, Z.pow_succ_r in Hn by lia.
    destruct (Z.ltb_spec n 10).
    + simpl. lia.
    + assert (Hq : 1 <= n / 10 < 10 ^ Z.of_nat f).
      { split; [apply Z.div_le_lower_bound; lia|].
        apply Z.div_lt_upper_bound; lia. }
      destruct (IH _ Hq) as (Hd & Hlo & Hhi).
      rewrite length_app, Nat2Z.inj_add. cbn [length Z.of_nat Pos.of_succ_nat].
      set (d := Z.of_nat (length (digits_fuel f (n / 10)))) in *.
      replace (d + 1 - 1) with (Z.succ (d - 1)) by lia.
      replace (d + 1) with (Z.succ d) by lia.
      rewrite !Z.pow_succ_r by lia.
      pose proof (Z.div_mod n 10 ltac:(lia)).
      pose proof (Z.mod_pos_bound n 10 ltac:(lia)).
      lia.
Qed.

Lemma ndigits_spec n :
  1 <= n ->
  1 <= ndigits n /\ 10 ^ (ndigits n - 1) <= n < 10 ^ ndigits n.
Proof.
  intros Hn. unfold ndigits, Z_to_text. apply digits_fuel_bounds.
  split; [exact Hn|]. apply Z_to_text_fuel. lia.
Qed.

(** [ge_pow10 p q e] compares [p/q] with [10^e], for any way to write [e]
    as a difference of two exponents. *)
Lemma ge_pow10_spec p q a b :
  0 <= a -> 0 <= b ->
  (ge_pow10 p q (a - b) = true <-> q * 10 ^ a <= p * 10 ^ b).
Proof.
  intros Ha Hb. unfold ge_pow10.
  assert (Hpos : forall k, 0 < 10 ^ k \/ k < 0).
  { intros k. destruct (Z.lt_ge_cases k 0); [now right|left].
    apply Z.pow_pos_nonneg; lia. }
  destruct (Z.leb_spec 0 (a - b)).
  - rewrite Z.leb_le.
    replace a with ((a - b) + b) at 2 by lia.
    rewrite Z.pow_add_r by lia.
    destruct (Hpos b) as [Hb'|]; [|lia].
    rewrite Z.mul_assoc. split; intros H'.
    + apply Z.mul_le_mono_nonneg_r; lia.
    + apply Z.mul_le_mono_pos_r in H'; lia.
  - rewrite Z.leb_le.
    replace b with ((- (a - b)) + a) at 2 by lia.
    rewrite Z.pow_add_r by lia.
    destruct (Hpos a) as [Ha'|]; [|lia].
    rewrite Z.mul_assoc. split; intros H'.
    + apply Z.mul_le_mono_nonneg_r; lia.
    + apply Z.mul_le_mono_pos_r in H'; lia.
Qed.

Lemma ge_pow10_false p q a b :
  0 <= a -> 0 <= b ->
  (ge_pow10 p q (a - b) = false <-> p * 10 ^ b < q * 10 ^ a).
Proof.
  intros Ha Hb. pose proof (ge_pow10_spec p q a b Ha Hb) as H.
  destruct (ge_pow10 p q (a - b)); split; intros H'; try discriminate;
    try reflexivity.
  - assert (q * 10 ^ a <= p * 10 ^ b) by now apply H. lia.
  - destruct (Z.le_gt_cases (q * 10 ^ a) (p * 10 ^ b)) as [Hle|Hgt];
      [|exact Hgt].
    apply H in Hle. discriminate.
Qed.

(** [exponent10 p q] is the decimal exponent of [p/q]. *)
Lemma exponent10_spec p q :
  1 <= p -> 1 <= q ->
  ge_pow10 p q (exponent10 p q) = true
  /\ ge_pow10 p q (exponent10 p q + 1) = false.
Proof.
  intros Hp Hq. unfold exponent10.
  destruct (ndigits_spec p Hp) as (Hdp & Hplo & Hphi).
  destruct (ndigits_spec q Hq) as (Hdq & Hqlo & Hqhi).
  set (dp := ndigits p) in *. set (dq := ndigits q) in *.
  assert (A : ge_pow10 p q (dp - dq - 1) = true).
  { replace (dp - dq - 1) with ((dp - 1) - dq) by lia.
    apply ge_pow10_spec; try lia.
    assert (0 < 10 ^ (dp - 1)) by (apply Z.pow_pos_nonneg; lia).
    nia. }
  assert (B : ge_pow10 p q (dp - dq + 1) = false).
  { replace (dp - dq + 1) with (dp - (dq - 1)) by lia.
    apply ge_pow10_false; try lia.
    assert (0 < 10 ^ (dq - 1)) by (apply Z.pow_pos_nonneg; lia).
    nia. }
  destruct (ge_pow10 p q (dp - dq)) eqn:E.
  - split; [exact E|exact B].
  - split; [exact A|]. now replace (dp - dq - 1 + 1) with (dp - dq) by lia.
Qed.

Lemma round_half_even_spec num den :
  0 < den -> 0 <= num ->
  num / den <= round_half_even num den <= num / den + 1
  /\ 2 * Z.abs (num - round_half_even num den * den) <= den.
Proof.
  intros Hden Hnum. unfold round_half_even.
  pose proof (Z.div_mod num den ltac:(lia)) as E.
  pose proof (Z.mod_pos_bound num den Hden) as Hr.
  set (qt := num / den) in *. set (r := num mod den) in *.
  destruct (Z.ltb_spec (2 * r) den); [lia|].
  destruct (Z.ltb_spec den (2 * r)); [lia|].
  destruct (Z.even qt); lia.
Qed.
End FormatSpec.

Section MantissaSpec.
Local Open Scope Z_scope.

(** The mantissa of [sci_parts] has nine digits and is [p/q], scaled by
    the power of ten of the exponent, rounded to the nearest integer. *)
Lemma sci_parts_spec p q :
  1 <= p -> 1 <= q ->
  10 ^ 8 <= fst (sci_parts p q) < 10 ^ 9
  /\ (snd (sci_parts p q) <= 8 ->
      2 * Z.abs (p * 10 ^ (8 - snd (sci_parts p q)) - fst (sci_parts p q) * q)
      <= q)
  /\ (8 < snd (sci_parts p q) ->
      2 * Z.abs (p - fst (sci_parts p q) * (q * 10 ^ (snd (sci_parts p q) - 8)))
      <= q * 10 ^ (snd (sci_parts p q) - 8)).
Proof.
  intros Hp Hq. unfold sci_parts.
  destruct (exponent10_spec p q Hp Hq) as [Hge Hlt].
  set (e0 := exponent10 p q) in *. clearbody e0.
  destruct (Z.leb_spec e0 8) as [He|He].
  - (* the number is scaled up *)
    replace e0 with (8 - (8 - e0)) in Hge by lia.
    apply ge_pow10_spec in Hge; try lia.
    replace (e0 + 1) with (9 - (8 - e0)) in Hlt by lia.
    apply ge_pow10_false in Hlt; try lia.
    set (num := p * 10 ^ (8 - e0)) in *.
    destruct (round_half_even_spec num q ltac:(lia) ltac:(lia))
      as [[Hlo Hhi] Hacc].
    assert (10 ^ 8 <= num / q) by (apply Z.div_le_lower_bound; lia).
    assert (num / q < 10 ^ 9) by (apply Z.div_lt_upper_bound; lia).
    destruct (Z.eqb_spec (round_half_even num q) (10 ^ 9)) as [E|E];
      cbn [fst snd].
    + rewrite E in Hacc. split; [lia|]. split; intros He'.
      * assert (Hn : num = 10 * (p * 10 ^ (8 - (e0 + 1)))).
        { unfold num. replace (8 - e0) with (Z.succ (8 - (e0 + 1))) by lia.
          rewrite Z.pow_succ_r by lia. ring. }
        rewrite Hn in Hacc. lia.
      * assert (e0 = 8) by lia. subst e0.
        replace (8 + 1 - 8) with 1 by lia.
        unfold num in Hacc. replace (8 - 8) with 0 in Hacc by lia.
        change (10 ^ 0) with 1 in Hacc. change (10 ^ 1) with 10. lia.
    + split; [lia|]. split; intros He'; [exact Hacc|lia].
  - (* the number is scaled down *)
    replace e0 with (e0 - 0) in Hge by lia.
    apply ge_pow10_spec in Hge; try lia.
    replace (e0 + 1) with ((e0 + 1) - 0) in Hlt by lia.
    apply ge_pow10_false in Hlt; try lia.
    change (10 ^ 0) with 1 in *.
    assert (E8 : 10 ^ e0 = 10 ^ 8 * 10 ^ (e0 - 8)).
    { rewrite <- Z.pow_add_r by lia. f_equal. lia. }
    assert (E9 : 10 ^ (e0 + 1) = 10 ^ 9 * 10 ^ (e0 - 8)).
    { rewrite <- Z.pow_add_r by lia. f_equal. lia. }
    assert (HD : 0 < 10 ^ (e0 - 8)) by (apply Z.pow_pos_nonneg; lia).
    set (D := 10 ^ (e0 - 8)) in *.
    assert (Hden : 0 < q * D) by nia.
    destruct (round_half_even_spec p (q * D) Hden ltac:(lia))
      as [[Hlo Hhi] Hacc].
    assert (10 ^ 8 <= p / (q * D)) by (apply Z.div_le_lower_bound; nia).
    assert (p / (q * D) < 10 ^ 9) by (apply Z.div_lt_upper_bound; nia).
    destruct (Z.eqb_spec (round_half_even p (q * D)) (10 ^ 9)) as [E|E];
      cbn [fst snd].
    + rewrite E in Hacc. split; [lia|]. split; intros He'; [lia|].
      replace (e0 + 1 - 8) with (Z.succ (e0 - 8)) by lia.
      rewrite Z.pow_succ_r by lia. fold D. lia.
    + split; [lia|]. split; intros He'; [lia|]. fold D. exact Hacc.
Qed.

Lemma fixed_digits_all w : forall n,
  0 <= n -> all is_digit (fixed_digits w n) /\ length (fixed_digits w n) = w.
Proof.
  induction w as [|w IH]; intros n Hn; cbn [fixed_digits].
  - split; [constructor|reflexivity].
  - destruct (IH (n / 10) ltac:(apply Z.div_pos; lia)) as [Ha Hl].
    split.
    + apply Forall_app. split; [exact Ha|].
      repeat constructor. apply digit_char_is_digit.
      pose proof (Z.mod_pos_bound n 10). lia.
    + rewrite length_app, Hl. simpl. lia.
Qed.

Lemma exp_text_shape e :
  exists esign edigits,
    exp_text e = esign :: edigits
    /\ (esign = "+"%char \/ esign = "-"%char)
    /\ all is_digit edigits /\ (2 <= length edigits)%nat.
Proof.
  unfold exp_text.
  assert (Hd : all is_digit (Z_to_text (Z.abs e)))
    by (apply digits_fuel_all; lia).
  assert (Hl : (1 <= length (Z_to_text (Z.abs e)))%nat).
  { unfold Z_to_text. cbn [digits_fuel].
    destruct (Z.abs e <? 10); [simpl; lia|]. rewrite length_app. simpl. lia. }
  assert (Hl2 : 10 <= Z.abs e -> (2 <= length (Z_to_text (Z.abs e)))%nat).
  { intros H10. unfold Z_to_text.
    assert (3 <= Z.log2 (Z.abs e)) by (apply Z.log2_le_pow2; simpl; lia).
    destruct (Z.to_nat (Z.log2 (Z.abs e))) as [|k] eqn:Ek; [lia|].
    cbn [digits_fuel].
    destruct (Z.ltb_spec (Z.abs e) 10); [lia|].
    rewrite length_app.
    destruct (Z.abs e / 10 <? 10); [simpl; lia|].
    rewrite length_app. simpl. lia. }
  exists (if e <? 0 then "-"%char else "+"%char).
  exists ((if Z.abs e <? 10 then T "0" else []) ++ Z_to_text (Z.abs e)).
  split; [destruct (e <? 0); reflexivity|].
  split; [destruct (e <? 0); auto|].
  destruct (Z.ltb_spec (Z.abs e) 10).
  - split; [apply Forall_app; split; [repeat constructor|exact Hd]|].
    rewrite length_app. simpl. lia.
  - split; [exact Hd|]. simpl. apply Hl2. lia.
Qed.
End MantissaSpec.

Lemma int_of_text_acc l : forall acc,
  fold_left (fun acc a => 10 * acc + digit_val a) l acc
  = acc * 10 ^ length l + int_of_text l.
Proof.
  unfold int_of_text.
  induction l as [|a l IH]; intros acc; cbn [fold_left length].
  - simpl. lia.
  - rewrite IH, (IH (10 * 0 + digit_val a)). rewrite Nat.pow_succ_r'. lia.
Qed.

Lemma int_of_text_cons a l :
  int_of_text (a :: l) = digit_val a * 10 ^ length l + int_of_text l.
Proof.
  unfold int_of_text at 1. cbn [fold_left]. rewrite int_of_text_acc. lia.
Qed.

Lemma fixed_digits_value w : forall n,
  (0 <= n)%Z ->
  int_of_text (fixed_digits w n) = Z.to_nat (n mod 10 ^ Z.of_nat w).
Proof.
  induction w as [|w IH]; intros n Hn; cbn [fixed_digits].
  - simpl. now rewrite Z.mod_1_r.
  - assert (Hq : (0 <= n / 10)%Z) by (apply Z.div_pos; lia).
    pose proof (Z.mod_pos_bound n 10 ltac:(lia)) as Hr.
    assert (Hpw : (0 < 10 ^ Z.of_nat w)%Z) by (apply Z.pow_pos_nonneg; lia).
    pose proof (Z.mod_pos_bound (n / 10) (10 ^ Z.of_nat w) Hpw) as Hr'.
    rewrite int_of_text_snoc, IH, digit_val_char by lia.
    rewrite Nat2Z.inj_succ, Z.pow_succ_r by lia.
    rewrite Z.rem_mul_r by lia.
    rewrite Z2Nat.inj_add, Z2Nat.inj_mul by lia.
    change (Z.to_nat 10) with 10%nat. lia.
Qed.

Section FormatTheorems.
Local Open Scope Z_scope.

Lemma Qc_num_nonzero (x : Qc) : x <> 0%Qc -> Qnum x <> 0.
Proof.
  intros Hx Hn. apply Hx. apply Qc_is_canon.
  unfold Qeq. simpl. rewrite Hn. reflexivity.
Qed.

(** The text of [format_e8 x] in terms of the mantissa and the exponent
    of [sci_parts]. *)
Lemma format_e8_eq (x : Qc) :
  Qnum x <> 0 ->
  format_e8 x
  = ((if Qnum x <? 0 then T "-" else [])
     ++ [digit_char (fst (sci_parts (Z.abs (Qnum x)) (Zpos (Qden x))) / 10 ^ 8)]
     ++ T "."
     ++ fixed_digits 8
          (fst (sci_parts (Z.abs (Qnum x)) (Zpos (Qden x))) mod 10 ^ 8)
     ++ T "e"
     ++ exp_text (snd (sci_parts (Z.abs (Qnum x)) (Zpos (Qden x)))))%list.
Proof.
  intros Hn. unfold format_e8.
  destruct (Z.eqb_spec (Qnum x) 0) as [E|_]; [contradiction|].
  destruct (sci_parts (Z.abs (Qnum x)) (Zpos (Qden x))) as [m e].
  reflexivity.
Qed.

Lemma format_e8_parts (x : Qc) :
  exists sign d frac esign edigits,
    format_e8 x
    = (sign ++ d :: T "." ++ frac ++ T "e" ++ esign :: edigits)%list
    /\ (sign = [] \/ sign = T "-")
    /\ is_digit d = true
    /\ all is_digit frac /\ length frac = 8%nat
    /\ (esign = "+"%char \/ esign = "-"%char)
    /\ all is_digit edigits /\ (2 <= length edigits)%nat
    /\ (x <> 0%Qc -> d <> "0"%char).
Proof.
  destruct (Z.eq_dec (Qnum x) 0) as [E|Hn].
  - exists [], "0"%char, (T "00000000"), "+"%char, (T "00").
    unfold format_e8. rewrite E. cbn [Z.eqb].
    repeat split; auto; try (repeat constructor).
    intros Hx. now destruct (Qc_num_nonzero x Hx).
  - rewrite (format_e8_eq x Hn).
    destruct (sci_parts_spec (Z.abs (Qnum x)) (Zpos (Qden x))
                ltac:(lia) ltac:(lia)) as ([Hlo Hhi] & _).
    set (m := fst (sci_parts (Z.abs (Qnum x)) (Zpos (Qden x)))) in *.
    set (e := snd (sci_parts (Z.abs (Qnum x)) (Zpos (Qden x)))).
    destruct (exp_text_shape e) as (esign & edigits & -> & Hs & Hd & Hl).
    assert (Hd1 : 1 <= m / 10 ^ 8 <= 9).
    { split; [apply Z.div_le_lower_bound; lia|].
      assert (m / 10 ^ 8 < 10) by (apply Z.div_lt_upper_bound; lia). lia. }
    destruct (fixed_digits_all 8 (m mod 10 ^ 8)) as [Hfa Hfl].
    { pose proof (Z.mod_pos_bound m (10 ^ 8)). lia. }
    exists (if Qnum x <? 0 then T "-" else []), (digit_char (m / 10 ^ 8)),
           (fixed_digits 8 (m mod 10 ^ 8)), esign, edigits.
    repeat split; auto.
    + destruct (Qnum x <? 0); auto.
    + apply digit_char_is_digit. lia.
    + intros _.
      destruct (digit_cases (m / 10 ^ 8) ltac:(lia))
        as [H0|[->|[->|[->|[->|[->|[->|[->|[->| ->]]]]]]]]];
        [lia|discriminate..].
Qed.

(** X8: every number is written with an optional minus sign, one digit, a
    point, eight digits, the letter e, a sign and at least two digits:
    nine significant digits.  The first digit of a non-zero number is not
    zero. *)
Theorem format_e8_shape (x : Qc) :
  exists sign d frac esign edigits,
    format_e8 x
    = (sign ++ d :: T "." ++ frac ++ T "e" ++ esign :: edigits)%list
    /\ (sign = [] \/ sign = T "-")
    /\ is_digit d = true
    /\ all is_digit frac /\ length frac = 8%nat
    /\ (esign = "+"%char \/ esign = "-"%char)
    /\ all is_digit edigits /\ (2 <= length edigits)%nat
    /\ (x <> 0%Qc -> d <> "0"%char).
Proof. exact (format_e8_parts x). Qed.

(** X9: the nine digits written for a non-zero number are the digits of the
    mantissa [m], with [10^8 <= m < 10^9], and [m] is the absolute value
    of the number, scaled by the power of ten of the written exponent [e],
    rounded to the nearest integer: [|x| / 10^(e-8)] differs from [m] by a
    half at most. *)
Theorem format_e8_rounds (x : Qc) :
  x <> 0%Qc ->
  exists m e,
    format_e8 x
    = ((if Qnum x <? 0 then T "-" else [])
       ++ [digit_char (m / 10 ^ 8)] ++ T "." ++ fixed_digits 8 (m mod 10 ^ 8)
       ++ T "e" ++ exp_text e)%list
    /\ Z.of_nat (int_of_text (digit_char (m / 10 ^ 8)
                              :: fixed_digits 8 (m mod 10 ^ 8)))
       = m
    /\ 10 ^ 8 <= m < 10 ^ 9
    /\ (e <= 8 ->
        2 * Z.abs (Z.abs (Qnum x) * 10 ^ (8 - e) - m * Zpos (Qden x))
        <= Zpos (Qden x))
    /\ (8 < e ->
        2 * Z.abs (Z.abs (Qnum x) - m * (Zpos (Qden x) * 10 ^ (e - 8)))
        <= Zpos (Qden x) * 10 ^ (e - 8)).
Proof.
  intros Hx. pose proof (Qc_num_nonzero x Hx) as Hn.
  destruct (sci_parts_spec (Z.abs (Qnum x)) (Zpos (Qden x))
              ltac:(lia) ltac:(lia)) as ([Hlo Hhi] & Hsmall & Hbig).
  exists (fst (sci_parts (Z.abs (Qnum x)) (Zpos (Qden x)))),
         (snd (sci_parts (Z.abs (Qnum x)) (Zpos (Qden x)))).
  set (m := fst (sci_parts (Z.abs (Qnum x)) (Zpos (Qden x)))) in *.
  split; [exact (format_e8_eq x Hn)|].
  split; [|auto].
  pose proof (Z.mod_pos_bound m (10 ^ 8) ltac:(lia)) as Hr.
  destruct (fixed_digits_all 8 (m mod 10 ^ 8) ltac:(lia)) as [_ Hfl].
  assert (Hd1 : 1 <= m / 10 ^ 8 <= 9).
  { split; [apply Z.div_le_lower_bound; lia|].
    assert (m / 10 ^ 8 < 10) by (apply Z.div_lt_upper_bound; lia). lia. }
  rewrite int_of_text_cons, Nat2Z.inj_add, Nat2Z.inj_mul, Nat2Z.inj_pow.
  rewrite Hfl, fixed_digits_value, digit_val_char, !Z2Nat.id by lia.
  change (Z.of_nat 10) with 10. change (Z.of_nat 8) with 8.
  rewrite Z.mod_mod by lia.
  pose proof (Z.div_mod m (10 ^ 8) ltac:(lia)) as E. lia.
Qed.
End FormatTheorems.

Lemma format_e8_rounds_witness :
  exists m e,
    format_e8 (Q2Qc (-1 # 3))
    = (T "-" ++ [digit_char (m / 10 ^ 8)] ++ T "."
       ++ fixed_digits 8 (m mod 10 ^ 8) ++ T "e" ++ exp_text e)%list
    /\ (10 ^ 8 <= m < 10 ^ 9)%Z.
Proof.
  destruct (format_e8_rounds (Q2Qc (-1 # 3)) ltac:(discriminate))
    as (m & e & H1 & _ & H2 & _).
  exists m, e. split; [exact H1|exact H2].
Defined.

(** ** The noise array *)

Section SumSpec.
Local Open Scope Qc_scope.

(** The length of an array, as a number. *)
Local Abbreviation qlen v := (Q2Qc (inject_Z (Z.of_nat (length v)))).






End SumSpec.

Section ColumnSpec.
Variable rng : Type.
Variable default_rng : Z -> rng.
Variable next_normal : rng -> Qc * rng.

Local Abbreviation noise := (noise default_rng next_normal).


(** X11: the first number of every row of the entry is written
    [1.00000000e+00]. *)
Theorem rows_start_with_one seed amp nCells U :
  noise seed amp nCells = inr U ->
  Forall (fun u => exists rest, format_row u = T "(1.00000000e+00 " ++ rest)
         U.
Proof.
  intros H.
  destruct (noise_inr _ default_rng next_normal seed amp nCells)
    as (U' & H' & _ & H0 & _).
  rewrite H in H'. injection H' as <-.
  apply Forall_forall. intros u Hu.
  apply (in_map (col 0)) in Hu. rewrite H0 in Hu. apply repeat_spec in Hu.
  unfold format_row. rewrite Hu.
  change (format_e8 1%Qc) with (T "1.00000000e+00").
  eexists. cbn [T list_ascii_of_string app]. reflexivity.
Qed.
End ColumnSpec.


Lemma rows_start_with_one_witness :
  exists U,
    noise Sample.lcg_seed Sample.lcg_next seed amp 3 = inr U
    /\ Forall (fun u => exists rest,
                  format_row u = T "(1.00000000e+00 " ++ rest) U.
Proof.
  destruct (noise Sample.lcg_seed Sample.lcg_next seed amp 3) as [e|U] eqn:H;
    [vm_compute in H; discriminate|].
  exists U. split; [reflexivity|].
  exact (rows_start_with_one _ Sample.lcg_seed Sample.lcg_next seed amp 3 U H).
Defined.

(** ** The entry read by the patterns of the extractor *)

Ltac ascii_cases a :=
  destruct a as [[|] [|] [|] [|] [|] [|] [|] [|]];
  vm_compute; intros; try reflexivity; try discriminate.

Lemma numchar_not_space a : is_numchar a = true -> is_space a = false.
Proof. ascii_cases a. Qed.

Lemma space_not_numchar a : is_space a = true -> is_numchar a = false.
Proof. ascii_cases a. Qed.

Lemma digit_is_numchar a : is_digit a = true -> is_numchar a = true.
Proof. ascii_cases a. Qed.

Lemma digit_not_space a : is_digit a = true -> is_space a = false.
Proof. ascii_cases a. Qed.

Lemma space_not_digit a : is_space a = true -> is_digit a = false.
Proof. ascii_cases a. Qed.

Lemma digit_not_lparen a : is_digit a = true -> a <> "("%char.
Proof. intros H ->. discriminate. Qed.

Lemma numchar_not_lparen a : is_numchar a = true -> a <> "("%char.
Proof. intros H ->. discriminate. Qed.

(** Two runs of a class that fill the same place of a text are equal. *)
Lemma span_unique c : forall w1 w2 r1 r2,
  all c w1 -> all c w2 -> stops c r1 -> stops c r2 ->
  w1 ++ r1 = w2 ++ r2 -> w1 = w2 /\ r1 = r2.
Proof.
  induction w1 as [|a w1 IH]; intros [|b w2] r1 r2 H1 H2 S1 S2 E;
    simpl in E.
  - auto.
  - subst r1. inversion H2; subst. simpl in S1. congruence.
  - subst r2. inversion H1; subst. simpl in S2. congruence.
  - injection E as <- E. inversion H1; inversion H2; subst.
    destruct (IH w2 r1 r2) as [<- <-]; auto.
Qed.

Lemma stops_app c d g r :
  all d g -> 1 <= length g -> (forall x, d x = true -> c x = false) ->
  stops c (g ++ r).
Proof.
  intros Hg Hl Hcd. destruct g as [|x g]; [simpl in Hl; lia|].
  inversion Hg; subst. simpl. auto.
Qed.

Lemma stops_app_opt c d g x r :
  all d g -> (forall y, d y = true -> c y = false) -> c x = false ->
  stops c (g ++ x :: r).
Proof.
  intros Hg Hcd Hx. destruct g as [|y g]; [exact Hx|].
  inversion Hg; subst. simpl. auto.
Qed.

(** The shape of a match of the vector pattern; its groups are the three
    numbers. *)
Lemma vector_match_shape w cs :
  Match vector_re w cs ->
  exists ws0 g1 ws1 g2 ws2 g3 ws3,
    w = T "(" ++ ws0 ++ g1 ++ ws1 ++ g2 ++ ws2 ++ g3 ++ ws3 ++ T ")"
    /\ cs = [g1; g2; g3]
    /\ all is_space ws0 /\ all is_space ws1 /\ all is_space ws2
    /\ all is_space ws3
    /\ 1 <= length ws1 /\ 1 <= length ws2
    /\ all is_numchar g1 /\ all is_numchar g2 /\ all is_numchar g3
    /\ 1 <= length g1 /\ 1 <= length g2 /\ 1 <= length g3.
Proof.
  unfold vector_re, plus, star. intros H. inv_match.
  do 7 eexists. repeat split; eauto.
Qed.

Lemma vector_match_intro g1 g2 g3 :
  all is_numchar g1 -> all is_numchar g2 -> all is_numchar g3 ->
  1 <= length g1 -> 1 <= length g2 -> 1 <= length g3 ->
  Match vector_re
        (T "(" ++ [] ++ g1 ++ T " " ++ g2 ++ T " " ++ g3 ++ [] ++ T ")")
        [g1; g2; g3].
Proof.
  intros H1 H2 H3 L1 L2 L3. unfold vector_re, plus, star.
  change [g1; g2; g3]
    with ([] ++ [] ++ ([] ++ [g1]) ++ [] ++ ([] ++ [g2]) ++ []
          ++ ([] ++ [g3]) ++ [] ++ @nil text).
  repeat (apply MCat;
          [first [apply MLit
                 |apply MGrp; apply MRep; assumption
                 |apply MRep; [repeat constructor|simpl; lia]]|]).
  apply MLit.
Qed.

(** On the text of a row, the vector pattern matches the row and nothing
    more. *)
Lemma vector_match_row a b c rest :
  all is_numchar a -> all is_numchar b -> all is_numchar c ->
  1 <= length a -> 1 <= length b -> 1 <= length c ->
  re_match_at vector_re
    (T "(" ++ a ++ T " " ++ b ++ T " " ++ c ++ T ")" ++ rest)
  = Some (rest, [a; b; c]).
Proof.
  intros Ha Hb Hc La Lb Lc.
  pose proof (vector_match_intro a b c Ha Hb Hc La Lb Lc) as HM.
  destruct (re_match_at vector_re _) as [[rest' cs]|] eqn:E.
  - apply re_match_at_Some in E as (w & Hw & HM').
    apply vector_match_shape in HM'
      as (ws0 & g1 & ws1 & g2 & ws2 & g3 & ws3 & -> & -> & S0 & S1 & S2 & S3
          & L1 & L2 & N1 & N2 & N3 & M1 & M2 & M3).
    repeat (rewrite <- app_assoc in Hw; cbn [T list_ascii_of_string app] in Hw).
    injection Hw as Hw.
    (* the white space after the parenthesis *)
    destruct (span_unique is_space [] ws0 _ _ (Forall_nil _) S0
                (stops_app _ _ _ _ Ha La numchar_not_space)
                (stops_app _ _ _ _ N1 M1 numchar_not_space) Hw) as [<- Hw1].
    cbn [app] in Hw1.
    (* the first number *)
    apply span_unique with (c := is_numchar) in Hw1;
      [destruct Hw1 as [<- Hw2]|exact Ha|exact N1|reflexivity
      |exact (stops_app _ _ _ _ S1 L1 space_not_numchar)].
    apply span_unique with (c := is_space) (w1 := [" "%char]) in Hw2;
      [destruct Hw2 as [<- Hw3]|repeat constructor|exact S1
      |exact (stops_app _ _ _ _ Hb Lb numchar_not_space)
      |exact (stops_app _ _ _ _ N2 M2 numchar_not_space)].
    (* the second number *)
    apply span_unique with (c := is_numchar) in Hw3;
      [destruct Hw3 as [<- Hw4]|exact Hb|exact N2|reflexivity
      |exact (stops_app _ _ _ _ S2 L2 space_not_numchar)].
    apply span_unique with (c := is_space) (w1 := [" "%char]) in Hw4;
      [destruct Hw4 as [<- Hw5]|repeat constructor|exact S2
      |exact (stops_app _ _ _ _ Hc Lc numchar_not_space)
      |exact (stops_app _ _ _ _ N3 M3 numchar_not_space)].
    (* the third number and the end *)
    apply span_unique with (c := is_numchar) in Hw5;
      [destruct Hw5 as [<- Hw6]|exact Hc|exact N3|reflexivity
      |apply (stops_app_opt _ _ _ ")"%char _ S3 space_not_numchar);
       reflexivity].
    apply span_unique with (c := is_space) (w1 := []) in Hw6;
      [destruct Hw6 as [<- Hw7]|constructor|exact S3
      |reflexivity|reflexivity].
    cbn [app] in Hw7. injection Hw7 as <-. reflexivity.
  - exfalso.
    refine (re_match_at_None _ _ E _ rest _ _ HM).
    repeat (rewrite <- app_assoc; cbn [T list_ascii_of_string app]).
    reflexivity.
Qed.

Lemma findall_from_eq r skip s :
  findall_from r skip s =
  match skip with
  | S n => match s with [] => [] | _ :: s' => findall_from r n s' end
  | O =>
      match re_match_at r s with
      | Some (rest, caps) =>
          caps :: match s with
                  | [] => []
                  | _ :: s' =>
                      findall_from r (pred (length s - length rest)) s'
                  end
      | None => match s with [] => [] | _ :: s' => findall_from r 0 s' end
      end
  end.
Proof. destruct s, skip; reflexivity. Qed.

Lemma findall_from_skip r x : forall rest,
  findall_from r (length x) (x ++ rest) = findall_from r 0 rest.
Proof.
  induction x as [|a x IH]; intros rest; [reflexivity|].
  cbn [length app]. rewrite findall_from_eq. apply IH.
Qed.

(** The vector pattern matches at an opening parenthesis only. *)
Lemma vector_no_match_other a s :
  a <> "("%char -> re_match_at vector_re (a :: s) = None.
Proof.
  intros Ha. unfold re_match_at, vector_re.
  cbn [m T list_ascii_of_string strip_prefix].
  destruct (Ascii.eqb_spec "(" a) as [E|_]; [now destruct Ha|reflexivity].
Qed.

Lemma findall_no_lparen pre : forall s,
  Forall (fun a => a <> "("%char) pre ->
  findall_from vector_re 0 (pre ++ s) = findall_from vector_re 0 s.
Proof.
  induction pre as [|a pre IH]; intros s H; [reflexivity|].
  inversion H; subst. cbn [app]. rewrite findall_from_eq.
  rewrite vector_no_match_other by assumption. now apply IH.
Qed.

(** No match at a parenthesis that white space and then something other
    than a number follow. *)
Lemma vector_no_match_open ws x rest :
  all is_space ws -> is_space x = false -> is_numchar x = false ->
  re_match_at vector_re ("("%char :: ws ++ x :: rest) = None.
Proof.
  intros Hws Hx Hn.
  destruct (re_match_at vector_re _) as [[rest' cs]|] eqn:E; [|reflexivity].
  exfalso. apply re_match_at_Some in E as (w & Hw & HM).
  apply vector_match_shape in HM
    as (ws0 & g1 & ws1 & g2 & ws2 & g3 & ws3 & -> & _ & S0 & _ & _ & _
        & _ & _ & N1 & _ & _ & M1 & _ & _).
  repeat (rewrite <- app_assoc in Hw; cbn [T list_ascii_of_string app] in Hw).
  injection Hw as Hw.
  apply span_unique with (c := is_space) in Hw;
    [|exact Hws|exact S0|exact Hx
     |exact (stops_app _ _ _ _ N1 M1 numchar_not_space)].
  destruct Hw as [_ Hw]. destruct g1 as [|y g1]; [simpl in M1; lia|].
  injection Hw as <- _. inversion N1; subst. congruence.
Qed.

(** The rows of the entry are found one by one. *)
Lemma findall_row a b c rest :
  all is_numchar a -> all is_numchar b -> all is_numchar c ->
  1 <= length a -> 1 <= length b -> 1 <= length c ->
  findall_from vector_re 0
    (T "(" ++ a ++ T " " ++ b ++ T " " ++ c ++ T ")" ++ rest)
  = [a; b; c] :: findall_from vector_re 0 rest.
Proof.
  intros Ha Hb Hc La Lb Lc.
  rewrite findall_from_eq, vector_match_row by assumption.
  f_equal. cbn [T list_ascii_of_string app].
  replace (a ++ " "%char :: b ++ " "%char :: c ++ ")"%char :: rest)
    with ((a ++ " "%char :: b ++ " "%char :: c ++ [")"%char]) ++ rest)
    by (repeat (rewrite <- app_assoc; cbn [app]); reflexivity).
  set (x := a ++ " "%char :: b ++ " "%char :: c ++ [")"%char]).
  replace (pred (length ("("%char :: x ++ rest) - length rest))
    with (length x)
    by (cbn [length]; rewrite length_app; lia).
  apply findall_from_skip.
Qed.

Lemma format_e8_numchars (x : Qc) :
  all is_numchar (format_e8 x) /\ 1 <= length (format_e8 x).
Proof.
  destruct (format_e8_parts x)
    as (sign & d & frac & esign & edigits & -> & Hs & Hd & Hf & _ & He & Hx
        & _).
  assert (Hdn : forall l, all is_digit l -> all is_numchar l).
  { intros l Hl. eapply Forall_impl; [|exact Hl].
    intros a Ha. now apply digit_is_numchar. }
  split.
  - apply Forall_app. split.
    + destruct Hs as [->| ->]; repeat constructor.
    + constructor; [now apply digit_is_numchar|].
      cbn [T list_ascii_of_string app]. constructor; [reflexivity|].
      apply Forall_app. split; [now apply Hdn|].
      constructor; [reflexivity|].
      constructor; [destruct He as [->| ->]; reflexivity|now apply Hdn].
  - rewrite length_app. simpl. lia.
Qed.

Lemma findall_format_row u rest :
  findall_from vector_re 0 (format_row u ++ rest)
  = row_groups u :: findall_from vector_re 0 rest.
Proof.
  unfold format_row, row_groups.
  destruct (format_e8_numchars (col 0 u)) as [H0 L0].
  destruct (format_e8_numchars (col 1 u)) as [H1 L1].
  destruct (format_e8_numchars (col 2 u)) as [H2 L2].
  rewrite <- (findall_row _ _ _ rest H0 H1 H2 L0 L1 L2).
  f_equal. now rewrite <- !app_assoc.
Qed.

Lemma findall_Ulist U : forall tail,
  findall_from vector_re 0 (Ulist U ++ tail)
  = map row_groups U ++ findall_from vector_re 0 tail.
Proof.
  unfold Ulist. induction U as [|u U IH]; intros tail; [reflexivity|].
  destruct U as [|u' U].
  - cbn [map join app]. apply findall_format_row.
  - change (join nl (map format_row (u :: u' :: U)))
      with (format_row u ++ nl ++ join nl (map format_row (u' :: U))).
    rewrite <- !app_assoc, findall_format_row. cbn [map app]. f_equal.
    unfold nl at 1. cbn [app]. rewrite findall_from_eq.
    rewrite vector_no_match_other by discriminate.
    apply IH.
Qed.

Lemma Ulist_cons_head u U : exists t, Ulist (u :: U) = "("%char :: t.
Proof.
  unfold Ulist. destruct U as [|u' U]; cbn [map join];
    unfold format_row; cbn [T list_ascii_of_string app]; eauto.
Qed.

(** What follows the head of the entry: the count, the list and its end. *)
Lemma findall_entry_body h nCells U post :
  Forall (fun a => a <> "("%char) h ->
  findall_from vector_re 0
    (h ++ nl ++ nat_to_text nCells ++ nl ++ T "(" ++ nl ++ Ulist U ++ nl
     ++ T ");" ++ nl ++ post)
  = map row_groups U ++ findall_from vector_re 0 post.
Proof.
  intros Hh.
  assert (Hpre : Forall (fun a => a <> "("%char)
                        (h ++ nl ++ nat_to_text nCells ++ nl)).
  { repeat (apply Forall_app; split); try exact Hh;
      try (repeat constructor; discriminate).
    destruct (nat_to_text_digits nCells) as [Hd _].
    eapply Forall_impl; [|exact Hd]. intros a. apply digit_not_lparen. }
  replace (h ++ nl ++ nat_to_text nCells ++ nl ++ T "(" ++ nl ++ Ulist U
           ++ nl ++ T ");" ++ nl ++ post)
    with ((h ++ nl ++ nat_to_text nCells ++ nl)
          ++ T "(" ++ nl ++ Ulist U ++ nl ++ T ");" ++ nl ++ post)
    by now rewrite <- !app_assoc.
  rewrite findall_no_lparen by exact Hpre.
  unfold nl. cbn [T list_ascii_of_string app].
  assert (Hopen : re_match_at vector_re
                    ("("%char :: LF :: Ulist U
                     ++ LF :: ")"%char :: ";"%char :: LF :: post) = None).
  { destruct U as [|u U].
    - apply (vector_no_match_open [LF; LF] ")"%char);
        [repeat constructor|reflexivity|reflexivity].
    - destruct (Ulist_cons_head u U) as [t ->].
      apply (vector_no_match_open [LF] "("%char);
        [repeat constructor|reflexivity|reflexivity]. }
  rewrite findall_from_eq, Hopen.
  rewrite findall_from_eq, vector_no_match_other by discriminate.
  rewrite findall_Ulist. f_equal.
Qed.

(** X12: the vector pattern finds in the entry the rows that the script wrote,
    each with its three numbers, and then goes on with the text that
    follows the entry. *)
Theorem findall_new_internal nCells U post :
  re_findall vector_re (new_internal nCells U ++ post)
  = map row_groups U ++ re_findall vector_re post.
Proof.
  unfold re_findall, new_internal. rewrite <- !app_assoc.
  apply findall_entry_body. repeat constructor; discriminate.
Qed.

(** The header pattern matches the entry at its start, and its group is
    the count that the script wrote. *)
Lemma header_search_entry nCells U post :
  exists f,
    re_search header_re (new_internal nCells U ++ post) = Some f
    /\ f_pre f = [] /\ f_groups f = [nat_to_text nCells].
Proof.
  destruct (nat_to_text_digits nCells) as [Hd Ld].
  set (rest0 := nl ++ Ulist U ++ nl ++ T ");" ++ nl ++ post).
  set (w0 := T "internalField" ++ T "   " ++ T "nonuniform" ++ T " "
             ++ T "List<vector>" ++ [] ++ nl ++ nat_to_text nCells ++ []
             ++ nl ++ T "(").
  assert (Hs : new_internal nCells U ++ post = [] ++ w0 ++ rest0).
  { unfold new_internal, w0, rest0.
    repeat (rewrite <- app_assoc; cbn [T list_ascii_of_string app]).
    reflexivity. }
  assert (HM : Match header_re w0 [nat_to_text nCells]).
  { unfold header_re, w0, plus, star.
    change [nat_to_text nCells]
      with ([] ++ [] ++ [] ++ [] ++ [] ++ [] ++ []
            ++ ([] ++ [nat_to_text nCells]) ++ [] ++ [] ++ @nil text).
    repeat (apply MCat;
            [first [apply MLit
                   |apply MGrp; apply MRep; assumption
                   |apply MRep; [repeat constructor|simpl; lia]]|]).
    apply MLit. }
  destruct (re_search header_re (new_internal nCells U ++ post))
    as [f|] eqn:E.
  2:{ exfalso. apply re_search_None in E. apply E.
      now exists [], w0, rest0, [nat_to_text nCells]. }
  exists f. split; [reflexivity|].
  apply re_search_Some in E as (Hf & HMf & Hleft).
  assert (Hpre : f_pre f = []).
  { specialize (Hleft _ _ _ _ Hs HM). simpl in Hleft.
    destruct (f_pre f); [reflexivity|simpl in Hleft; lia]. }
  split; [exact Hpre|].
  rewrite Hpre in Hf. cbn [app] in Hf.
  apply header_match_shape in HMf
    as (ws1 & ws2 & ws3 & ds & ws4 & Hw & -> & Dd & Ldd & S1 & S2 & S3 & S4).
  rewrite Hw in Hf. unfold new_internal, nl in Hf.
  repeat (rewrite <- app_assoc in Hf; cbn [T list_ascii_of_string app] in Hf).
  injection Hf as Hf.
  apply span_unique with (c := is_space) (w1 := T "   ") in Hf;
    [|repeat constructor|exact S1|reflexivity|reflexivity].
  destruct Hf as [_ Hf]. injection Hf as Hf.
  apply span_unique with (c := is_space) (w1 := T " ") in Hf;
    [|repeat constructor|exact S2|reflexivity|reflexivity].
  destruct Hf as [_ Hf]. injection Hf as Hf.
  (* the white space and the line feed before the count *)
  change (LF :: nat_to_text nCells ++ LF :: "("%char :: LF :: Ulist U
          ++ LF :: ")"%char :: ";"%char :: LF :: post)
    with ([LF] ++ nat_to_text nCells ++ LF :: "("%char :: LF :: Ulist U
          ++ LF :: ")"%char :: ";"%char :: LF :: post) in Hf.
  change (ws3 ++ LF :: ds ++ ws4 ++ LF :: "("%char :: f_post f)
    with (ws3 ++ [LF] ++ ds ++ ws4 ++ LF :: "("%char :: f_post f) in Hf.
  rewrite (app_assoc ws3) in Hf.
  apply span_unique with (c := is_space) in Hf;
    [|repeat constructor
     |apply Forall_app; split; [exact S3|repeat constructor]
     |exact (stops_app _ _ _ _ Hd Ld digit_not_space)
     |exact (stops_app _ _ _ _ Dd Ldd digit_not_space)].
  destruct Hf as [_ Hf].
  apply span_unique with (c := is_digit) in Hf;
    [|exact Hd|exact Dd|reflexivity
     |apply (stops_app_opt _ _ _ LF _ S4 space_not_digit); reflexivity].
  destruct Hf as [<- _]. reflexivity.
Qed.

Lemma split_once_head needle rest :
  split_once needle (needle ++ rest) = Some ([], rest).
Proof.
  unfold split_once.
  assert (E : forall s pre_rev,
             split_once_from needle pre_rev s =
             match strip_prefix needle s with
             | Some r => Some (rev pre_rev, r)
             | None => match s with
                       | [] => None
                       | a :: s' => split_once_from needle (a :: pre_rev) s'
                       end
             end) by (intros [|? ?] ?; reflexivity).
  now rewrite E, strip_prefix_app.
Qed.

(** X13: the entry that the script writes is accepted by the extractor of the
    script, with the count that was written, whatever text follows the
    entry. *)
Theorem entry_reads_back nCells U post :
  nCells <= length U ->
  extract (new_internal nCells U ++ post) = inr nCells.
Proof.
  intros Hle. apply extract_inr.
  destruct (header_search_entry nCells U post) as (f & Hf & _ & Hg).
  exists f, [],
    (T "   nonuniform List<vector>" ++ nl ++ nat_to_text nCells ++ nl
     ++ T "(" ++ nl ++ Ulist U ++ nl ++ T ");" ++ nl ++ post).
  split; [exact Hf|].
  split; [unfold declared; rewrite Hg; cbn [nth];
          now rewrite int_of_text_nat_to_text|].
  split.
  - unfold new_internal.
    change (T "internalField   nonuniform List<vector>")
      with (T "internalField" ++ T "   nonuniform List<vector>").
    rewrite <- !app_assoc. apply split_once_head.
  - unfold re_findall. rewrite findall_entry_body
      by (repeat constructor; discriminate).
    rewrite length_app, length_map. lia.
Qed.

Lemma entry_reads_back_witness :
  extract (new_internal 2 [(1%Qc, 0%Qc, 0%Qc); (1%Qc, amp, (- amp)%Qc)]
           ++ T "boundaryField { }")
  = inr 2.
Proof.
  apply entry_reads_back. simpl. lia.
Defined.

(** ** The replacement text *)

Lemma numchar_not_backslash a : is_numchar a = true -> a <> "\"%char.
Proof. intros H ->. discriminate. Qed.

Lemma format_row_no_backslash u :
  Forall (fun a => a <> "\"%char) (format_row u).
Proof.
  assert (H : forall x, Forall (fun a => a <> "\"%char) (format_e8 x)).
  { intros x. destruct (format_e8_numchars x) as [Hx _].
    eapply Forall_impl; [|exact Hx]. intros a. apply numchar_not_backslash. }
  unfold format_row.
  repeat (apply Forall_app; split); auto; repeat constructor; discriminate.
Qed.

Lemma join_Forall (P : ascii -> Prop) sep parts :
  Forall P sep -> Forall (Forall P) parts -> Forall P (join sep parts).
Proof.
  intros Hs. induction parts as [|p parts IH]; intros Hp; [constructor|].
  inversion Hp as [|? ? H1 H2]; subst.
  destruct parts as [|p' parts]; [exact H1|].
  change (join sep (p :: p' :: parts)) with (p ++ sep ++ join sep (p' :: parts)).
  repeat (apply Forall_app; split); auto.
Qed.

(** X14: the text that the script gives to [re.subn] as replacement holds no
    backslash: the template processing of [re.subn] (escapes, group
    references) leaves it as it is. *)
Theorem new_internal_no_backslash nCells U :
  Forall (fun a => a <> "\"%char) (new_internal nCells U)
  /\ Forall (fun a => a <> "\"%char) (strip (new_internal nCells U) ++ nl).
Proof.
  assert (H : Forall (fun a => a <> "\"%char) (new_internal nCells U)).
  { unfold new_internal.
    repeat (apply Forall_app; split);
      try (repeat constructor; discriminate).
    - destruct (nat_to_text_digits nCells) as [Hd _].
      eapply Forall_impl; [|exact Hd]. intros a Ha ->. discriminate.
    - unfold Ulist. apply join_Forall; [repeat constructor; discriminate|].
      apply Forall_forall. intros t Ht. apply in_map_iff in Ht as (u & <- & _).
      apply format_row_no_backslash. }
  split; [exact H|]. now rewrite strip_new_internal.
Qed.


